(** * MPIManager: rank-aware, level-filtered logging and timer stack

    A shallow embedding of [include/mpimgr.h] and [src/mpimgr.cpp].

    One process of the group is modelled as a [Process]: the [MPIManager]
    object it owns together with the number of clock readings it has taken.
    Member functions are computations of the monad [M]: they thread the
    process state, append to the trace of externally visible events (text
    written to standard output, MPI collectives) and stop at [MPI_Abort],
    or where the C++ program has no defined behaviour.

    The last part of the file composes the traces of the processes of a
    group under the rendezvous semantics of [MPI_Barrier]. *)

From Stdlib Require Import ZArith List String Ascii Bool Lia DecimalString.
From Stdlib Require Import DecimalPos DecimalZ.
Import ListNotations.
Local Open Scope string_scope.
Local Open Scope list_scope.
Local Open Scope Z_scope.

(** ** Data model ([include/mpimgr.h]) *)

(** [enum class Level]: the Syslog levels, in declaration order. *)
Inductive Level : Set :=
  | emerg | alert | crit | err | warning | notice | info | debug.

(** The value of the enumerator, which [<=] on [Level] compares. *)
Definition Level_ord (l : Level) : Z :=
  match l with
  | emerg => 0 | alert => 1 | crit => 2 | err => 3
  | warning => 4 | notice => 5 | info => 6 | debug => 7
  end.

Definition Level_leb (a b : Level) : bool := Level_ord a <=? Level_ord b.

(** [enum class Ranks]. *)
Inductive Ranks : Set := zero | all.

Definition Ranks_eqb (a b : Ranks) : bool :=
  match a, b with
  | zero, zero | all, all => true
  | _, _ => false
  end.

(** [std::chrono::time_point] and durations, in clock ticks. *)
Definition time_point := Z.
Definition duration := Z.

(** [MPI_Comm]: an opaque handle. *)
Definition MPI_Comm := Z.

(** [struct Timer]. *)
Module Timer.
Record t : Set := make { start : time_point; level : Level; name : string }.
End Timer.

(** The data members of [class MPIManager].  [rank] and [size] are [int]s
    that the code only compares, so no wrap-around arises. *)
Record MPIManager : Set := mkMPIManager {
  comm : MPI_Comm;
  rank : Z;
  size : Z;
  level : Level;
  ranks : Ranks;
  timers : list Timer.t
}.

(** A process: its manager, and how often it has read the clock. *)
Record Process : Set := mkProcess {
  this : MPIManager;
  clock_reads : nat
}.

(** ** Collaborators *)

(** What the process gets from outside the repository: the clock, the
    chrono formatting of [fmt], and [EXIT_FAILURE] of [<cstdlib>]. *)
Record Platform : Type := mkPlatform {
  (** the value of the n-th call of [high_resolution_clock::now()] *)
  clock_now : nat -> time_point;
  (** [fmt::format] of a time point under a chrono format specification *)
  format_time_point : string -> time_point -> string;
  (** [fmt::format] of a duration under a chrono format specification *)
  format_duration : string -> duration -> string;
  EXIT_FAILURE : Z
}.

(** What the MPI runtime answers to this process at start-up. *)
Record MPI_World : Set := mkWorld {
  MPI_COMM_WORLD : MPI_Comm;
  world_rank : MPI_Comm -> Z;
  world_size : MPI_Comm -> Z
}.

(** [fmt::color] and [fmt::text_style], as far as the code uses them. *)
Inductive color : Set :=
  | dark_red | red | dark_orange | orange | green | blue | purple.

Inductive text_style : Set :=
  | plain
  | emphasis_bold
  | fg (c : color).

(** Externally visible events of one process. *)
Inductive event : Set :=
  | Print (style : text_style) (text : string)
  | Init
  | Barrier (c : MPI_Comm)
  | Abort (c : MPI_Comm) (status : Z)
  | Finalize.

Abbreviation trace := (list event).

(** ** Formatting *)

Definition newline : string := String (ascii_of_nat 10) EmptyString.

(** [{}] applied to an [int]. *)
Definition fmt_int (z : Z) : string := NilZero.string_of_int (Z.to_int z).

(** [fmt::format] for format strings whose only replacement fields are
    [{}]: each field takes the next argument. *)
Fixpoint fmt_format (f : string) (args : list string) : string :=
  match f with
  | EmptyString => EmptyString
  | String c f' =>
      match f' with
      | String c' f'' =>
          if (Ascii.eqb c "{" && Ascii.eqb c' "}")%bool then
            match args with
            | a :: args' => (a ++ fmt_format f'' args')%string
            | [] => fmt_format f'' []
            end
          else String c (fmt_format f' args)
      | EmptyString => String c EmptyString
      end
  end.

(** ** The monad of member functions *)

(** How a computation ends: it returns, or the process is terminated, or
    it reaches the point, in state [p], where the C++ program has no
    defined behaviour any more; nothing is said of what follows that
    point. *)
Inductive outcome (A : Type) : Type :=
  | Returned (a : A) (p : Process)
  | Terminated (p : Process) (status : Z)
  | Undefined (p : Process).

Arguments Returned {A} a p.
Arguments Terminated {A} p status.
Arguments Undefined {A} p.

Definition M (A : Type) : Type := Process -> trace * outcome A.

Definition ret {A} (a : A) : M A := fun p => ([], Returned a p).

Definition bind {A B} (m : M A) (f : A -> M B) : M B :=
  fun p =>
    match m p with
    | (tr, Returned a p') =>
        let (tr', o) := f a p' in (tr ++ tr', o)
    | (tr, Terminated p' status) => (tr, Terminated p' status)
    | (tr, Undefined p') => (tr, Undefined p')
    end.

Declare Scope mgr_scope.
Delimit Scope mgr_scope with mgr.
Notation "x <- m ;; k" := (bind m (fun x => k))
  (at level 61, m at next level, right associativity) : mgr_scope.
Notation "m ;; k" := (bind m (fun _ => k))
  (at level 61, right associativity) : mgr_scope.
Local Open Scope mgr_scope.

(** Reading a data member. *)
Definition get {A} (field : MPIManager -> A) : M A :=
  fun p => ([], Returned (field (this p)) p).

(** Assigning the timer stack. *)
Definition update_timers (m : MPIManager) (ts : list Timer.t) : MPIManager :=
  mkMPIManager (comm m) (rank m) (size m) (level m) (ranks m) ts.

Definition set_timers (ts : list Timer.t) : M unit :=
  fun p =>
    ([], Returned tt (mkProcess (update_timers (this p) ts) (clock_reads p))).

Definition emit (e : event) : M unit := fun p => ([e], Returned tt p).

Definition print (style : text_style) (text : string) : M unit :=
  emit (Print style text).

Definition MPI_Barrier (c : MPI_Comm) : M unit := emit (Barrier c).

Definition MPI_Finalize : M unit := emit Finalize.

(** [MPI_Abort] does not return. *)
Definition MPI_Abort {A} (c : MPI_Comm) (status : Z) : M A :=
  fun p => ([Abort c status], Terminated p status).

(** An operation that C++ leaves undefined. *)
Definition undefined_behaviour {A} : M A := fun p => ([], Undefined p).

(** [when c m]: [if (c) { m }]. *)
Definition when (c : bool) (m : M unit) : M unit := if c then m else ret tt.

(** [for (x : xs) body]. *)
Fixpoint for_each {A} (xs : list A) (body : A -> M unit) : M unit :=
  match xs with
  | [] => ret tt
  | x :: xs' => body x ;; for_each xs' body
  end.

(** [std::views::iota(lo, hi)]: the integers from [lo] up to [hi - 1].
    The code calls it with [lo = 0] and the size of the communicator,
    which MPI makes positive; the range is empty when [hi <= lo]. *)
Definition iota (lo hi : Z) : list Z :=
  map (fun k => lo + Z.of_nat k) (seq 0 (Z.to_nat (hi - lo))).

Definition trace_of {A} (r : trace * outcome A) : trace := fst r.
Definition outcome_of {A} (r : trace * outcome A) : outcome A := snd r.

(** [std::vector::back]; [None] stands for the empty vector, on which the
    C++ call has no defined result. *)
Fixpoint back {A} (v : list A) : option A :=
  match v with
  | [] => None
  | [x] => Some x
  | _ :: v' => back v'
  end.

(** [std::vector::empty]. *)
Definition empty {A} (v : list A) : bool :=
  match v with
  | [] => true
  | _ :: _ => false
  end.

(** [std::vector::pop_back]. *)
Definition pop_back {A} (v : list A) : list A := removelast v.

(** [std::vector::emplace_back]. *)
Definition emplace_back {A} (v : list A) (x : A) : list A := v ++ [x].

(** ** Member functions ([src/mpimgr.cpp]) *)

(** [MPIManager::sufficient_level], a [const] member function. *)
Definition sufficient_level (m : MPIManager) (lvl : Level) : bool :=
  if Level_leb lvl (level m) then true else false.

(** [MPIManager::sufficient_rank], a [const] member function. *)
Definition sufficient_rank (m : MPIManager) : bool :=
  if Ranks_eqb zero (ranks m) then 0 =? rank m else true.

(** The [log_*] renderers: three calls of [fmt::print] each. *)
Definition log_emerg (msg : string) : M unit :=
  r <- get rank ;;
  print emphasis_bold (fmt_format "Rank {}: " [fmt_int r]) ;;
  print (fg dark_red) "[EMERG]" ;;
  print plain (fmt_format (": {}" ++ newline) [msg]).

Definition log_alert (msg : string) : M unit :=
  r <- get rank ;;
  print emphasis_bold (fmt_format "Rank {}: " [fmt_int r]) ;;
  print (fg red) "[ALERT]" ;;
  print plain (fmt_format (": {}" ++ newline) [msg]).

Definition log_crit (msg : string) : M unit :=
  r <- get rank ;;
  print emphasis_bold (fmt_format "Rank {}: " [fmt_int r]) ;;
  print (fg dark_orange) "[CRIT]" ;;
  print plain (fmt_format (": {}" ++ newline) [msg]).

Definition log_err (msg : string) : M unit :=
  r <- get rank ;;
  print emphasis_bold (fmt_format "Rank {}: " [fmt_int r]) ;;
  print (fg orange) "[ERR]" ;;
  print plain (fmt_format (": {}" ++ newline) [msg]).

Definition log_warning (msg : string) : M unit :=
  r <- get rank ;;
  print emphasis_bold (fmt_format "Rank {}: " [fmt_int r]) ;;
  print (fg orange) "[WARNING]" ;;
  print plain (fmt_format (": {}" ++ newline) [msg]).

Definition log_notice (msg : string) : M unit :=
  r <- get rank ;;
  print emphasis_bold (fmt_format "Rank {}: " [fmt_int r]) ;;
  print (fg green) "[NOTICE]" ;;
  print plain (fmt_format (": {}" ++ newline) [msg]).

Definition log_info (msg : string) : M unit :=
  r <- get rank ;;
  print emphasis_bold (fmt_format "Rank {}: " [fmt_int r]) ;;
  print (fg blue) "[INFO]" ;;
  print plain (fmt_format (": {}" ++ newline) [msg]).

Definition log_debug (msg : string) : M unit :=
  r <- get rank ;;
  print emphasis_bold (fmt_format "Rank {}: " [fmt_int r]) ;;
  print (fg purple) "[DEBUG]" ;;
  print plain (fmt_format (": {}" ++ newline) [msg]).

(** The [switch (ranks)] that [MPIManager::log] repeats under every case
    of its [switch (level)], with the renderer of that case. *)
Definition log_on_ranks (log_level : string -> M unit) (msg : string)
  : M unit :=
  rs <- get ranks ;;
  match rs with
  | zero =>
      r <- get rank ;;
      when (0 =? r) (log_level msg)
  | all =>
      n <- get size ;;
      for_each (iota 0 n) (fun i =>
        r <- get rank ;;
        when (r =? i) (log_level msg) ;;
        c <- get comm ;;
        MPI_Barrier c)
  end.

(** [MPIManager::log]. *)
Definition log (lvl : Level) (msg : string) : M unit :=
  ok <- get (fun m => sufficient_rank m && sufficient_level m lvl)%bool ;;
  when ok
    match lvl with
    | emerg => log_on_ranks log_emerg msg
    | alert => log_on_ranks log_alert msg
    | crit => log_on_ranks log_crit msg
    | err => log_on_ranks log_err msg
    | warning => log_on_ranks log_warning msg
    | notice => log_on_ranks log_notice msg
    | info => log_on_ranks log_info msg
    | debug => log_on_ranks log_debug msg
    end.

(** [MPIManager::MPIManager]: the object a process holds after joining. *)
Definition MPIManager_ctor (W : MPI_World) (lvl : Level) (rs : Ranks)
  : trace * Process :=
  let c := MPI_COMM_WORLD W in
  ([Init],
   mkProcess (mkMPIManager c (world_rank W c) (world_size W c) lvl rs []) 0).

Section Engine.

Variable P : Platform.

(** [std::chrono::high_resolution_clock::now()]. *)
Definition now : M time_point :=
  fun p =>
    ([], Returned (clock_now P (clock_reads p))
           (mkProcess (this p) (S (clock_reads p)))).

(** [MPIManager::abort]. *)
Definition abort (msg : string) : M unit :=
  log_emerg msg ;;
  c <- get comm ;;
  MPI_Abort c (EXIT_FAILURE P).

(** [MPIManager::timer_start]. *)
Definition timer_start (lvl : Level) (name : string) : M unit :=
  ok <- get (fun m => sufficient_rank m && sufficient_level m lvl)%bool ;;
  when ok
    (t <- now ;;
     ts <- get timers ;;
     set_timers (emplace_back ts (Timer.make t lvl name)) ;;
     ts' <- get timers ;;
     match back ts' with
     | Some top =>
         log lvl ("Timer: `" ++ name ++ "` started at: "
                  ++ format_time_point P "%Y-%m-%d %H:%M:%S"
                       (Timer.start top))%string
     | None => ret tt
     end).

(** [MPIManager::timer_stop]. *)
Definition timer_stop : M unit :=
  ok <- get (fun m => sufficient_rank m && negb (empty (timers m)))%bool ;;
  when ok
    (end_ <- now ;;
     ts <- get timers ;;
     match back ts with
     | Some timer =>
         let d := end_ - Timer.start timer in
         log (Timer.level timer)
             ("Timer: `" ++ Timer.name timer ++ "` stopped at: "
              ++ format_time_point P "%Y-%m-%d %H:%M:%S" end_
              ++ " with duration: "
              ++ format_duration P "%H:%M:%S" d)%string ;;
         ts' <- get timers ;;
         set_timers (pop_back ts')
     | None => ret tt
     end).

(** [MPIManager::~MPIManager].  The range-based [for] takes the begin
    and end iterators of [timers] once, on entry, so it visits the
    positions [0] to [n - 1] of the [n] timers that are open then.  Each
    iteration first copies the element at its position into the loop
    variable, [auto timer = *it], and then calls [timer_stop], which pops
    the last element.  A position that [timer_stop] has popped meanwhile
    holds a destroyed [Timer]: copying it has no defined behaviour. *)
Definition MPIManager_dtor : M unit :=
  e <- get (fun m => empty (timers m)) ;;
  when (negb e)
    (log warning
         "Timers are running at the time of environment destruction." ;;
     n <- get (fun m => List.length (timers m)) ;;
     for_each (seq 0 n) (fun it =>
       ts <- get timers ;;
       match nth_error ts it with
       | Some timer => timer_stop
       | None => undefined_behaviour
       end)) ;;
  MPI_Finalize.

End Engine.

(** ** Vocabulary of the statements *)

(** The renderer that the [switch (level)] of [MPIManager::log] selects. *)
Definition log_level (lvl : Level) : string -> M unit :=
  match lvl with
  | emerg => log_emerg
  | alert => log_alert
  | crit => log_crit
  | err => log_err
  | warning => log_warning
  | notice => log_notice
  | info => log_info
  | debug => log_debug
  end.

(** The line that manager [m] writes for [msg] at [lvl]: what its renderer
    prints. *)
Definition line_of (m : MPIManager) (lvl : Level) (msg : string) : trace :=
  trace_of (log_level lvl msg (mkProcess m 0)).

(** What a process with manager [m] does in [MPIManager::log] once the
    filters have passed, when its renderer writes [line]. *)
Definition on_ranks_trace (m : MPIManager) (line : trace) : trace :=
  match ranks m with
  | zero => if 0 =? rank m then line else []
  | all =>
      flat_map (fun i => (if rank m =? i then line else []) ++ [Barrier (comm m)])
               (iota 0 (size m))
  end.

(** What [MPIManager::log] does on a process with manager [m]. *)
Definition log_trace (m : MPIManager) (lvl : Level) (msg : string) : trace :=
  if (sufficient_rank m && sufficient_level m lvl)%bool
  then on_ranks_trace m (line_of m lvl msg)
  else [].

Definition is_print (e : event) : bool :=
  match e with
  | Print _ _ => true
  | _ => false
  end.

Definition is_barrier (e : event) : bool :=
  match e with
  | Barrier _ => true
  | _ => false
  end.

(** The text events of a trace, in order. *)
Definition prints (tr : trace) : trace := filter is_print tr.

Fixpoint ends_with_newline (s : string) : bool :=
  match s with
  | EmptyString => false
  | String c EmptyString => Ascii.eqb c (ascii_of_nat 10)
  | String _ s' => ends_with_newline s'
  end.

Definition ends_line (e : event) : bool :=
  match e with
  | Print _ text => ends_with_newline text
  | _ => false
  end.

(** The number of lines a trace completes on standard output. *)
Definition count_lines (tr : trace) : nat := List.length (filter ends_line tr).

(** The rank is one of the group: what [MPI_Comm_rank] and [MPI_Comm_size]
    guarantee. *)
Definition valid_identity (m : MPIManager) : Prop := 0 <= rank m < size m.

(** What is fixed at construction. *)
Definition identity_and_config (m : MPIManager)
  : MPI_Comm * Z * Z * Level * Ranks :=
  (comm m, rank m, size m, level m, ranks m).

(** The process a computation leaves behind, returning or not. *)
Definition final_process {A} (r : trace * outcome A) : Process :=
  match outcome_of r with
  | Returned _ p => p
  | Terminated p _ => p
  | Undefined p => p
  end.

Definition returns {A} (r : trace * outcome A) : bool :=
  match outcome_of r with
  | Returned _ _ => true
  | Terminated _ _ => false
  | Undefined _ => false
  end.

(** The message of the stop line of [timer], stopped at [end_]. *)
Definition stop_message (P : Platform) (timer : Timer.t) (end_ : time_point)
  : string :=
  ("Timer: `" ++ Timer.name timer ++ "` stopped at: "
   ++ format_time_point P "%Y-%m-%d %H:%M:%S" end_
   ++ " with duration: "
   ++ format_duration P "%H:%M:%S" (end_ - Timer.start timer))%string.

(** The message of the start line of a timer [name] started at [t]. *)
Definition start_message (P : Platform) (name : string) (t : time_point)
  : string :=
  ("Timer: `" ++ name ++ "` started at: "
   ++ format_time_point P "%Y-%m-%d %H:%M:%S" t)%string.

Definition destruction_warning : string :=
  "Timers are running at the time of environment destruction.".

(** An event of [log]: text or a barrier. *)
Definition is_log_event (e : event) : bool := is_print e || is_barrier e.

(** The calls a client can make on a live manager. *)
Inductive call : Set :=
  | call_log (lvl : Level) (msg : string)
  | call_timer_start (lvl : Level) (name : string)
  | call_timer_stop
  | call_abort (msg : string).

Definition invoke (P : Platform) (c : call) : M unit :=
  match c with
  | call_log lvl msg => log lvl msg
  | call_timer_start lvl name => timer_start P lvl name
  | call_timer_stop => timer_stop P
  | call_abort msg => abort P msg
  end.

(** A sequence of calls, in program order. *)
Fixpoint invoke_all (P : Platform) (cs : list call) : M unit :=
  match cs with
  | [] => ret tt
  | c :: cs' => invoke P c ;; invoke_all P cs'
  end.

(** The states a process can be in between two calls. *)
Inductive reachable (P : Platform) (W : MPI_World) : Process -> Prop :=
  | reachable_ctor : forall lvl rs,
      reachable P W (snd (MPIManager_ctor W lvl rs))
  | reachable_call : forall p c tr p',
      reachable P W p ->
      invoke P c p = (tr, Returned tt p') ->
      reachable P W p'.

(** Every open timer was admitted by both filters. *)
Definition timers_admitted (m : MPIManager) : Prop :=
  forall t, In t (timers m) ->
    sufficient_rank m = true /\ sufficient_level m (Timer.level t) = true.

(** ** A group of processes *)

(** One step of the group: a process performs its next event, or all
    processes leave the barrier they are all waiting in. *)
Inductive action : Set :=
  | Run (pid : nat)
  | Sync.

Definition at_barrier (t : trace) : bool :=
  match t with
  | e :: _ => is_barrier e
  | [] => false
  end.

Fixpoint replace_nth {A} (n : nat) (x : A) (l : list A) : list A :=
  match l, n with
  | [], _ => []
  | _ :: l', O => x :: l'
  | y :: l', S n' => y :: replace_nth n' x l'
  end.

(** The configuration of a group: what each process has yet to do, by rank.
    A step yields what the collector of the output observes. *)
Definition step (a : action) (cfg : list trace)
  : option (list (nat * event) * list trace) :=
  match a with
  | Run pid =>
      match nth_error cfg pid with
      | Some (e :: rest) =>
          if is_barrier e then None
          else Some ([(pid, e)], replace_nth pid rest cfg)
      | _ => None
      end
  | Sync =>
      if forallb at_barrier cfg then Some ([], map (@tl event) cfg) else None
  end.

Fixpoint run (sched : list action) (cfg : list trace)
  : option (list (nat * event) * list trace) :=
  match sched with
  | [] => Some ([], cfg)
  | a :: sched' =>
      match step a cfg with
      | Some (out, cfg') =>
          match run sched' cfg' with
          | Some (out', cfg'') => Some (out ++ out', cfg'')
          | None => None
          end
      | None => None
      end
  end.

(** The processes of a group, by rank, all of which log on every rank. *)
Definition is_group (procs : list Process) : Prop :=
  forall i p, nth_error procs i = Some p ->
    rank (this p) = Z.of_nat i /\
    size (this p) = Z.of_nat (List.length procs) /\
    ranks (this p) = all.

Fixpoint nondecreasing (l : list nat) : Prop :=
  match l with
  | [] => True
  | x :: l' => Forall (fun y => (x <= y)%nat) l' /\ nondecreasing l'
  end.

(** The schedule under which the ranks take their turns one after the
    other: [width] local steps for the rank whose turn it is, then the
    barrier. *)
Definition round_robin (width n : nat) : list action :=
  flat_map (fun i => repeat (Run i) width ++ [Sync]) (seq 0 n).

Definition count_barriers (tr : trace) : nat :=
  List.length (filter is_barrier tr).

(** With [b] barriers behind the group, whatever a process [pid] has yet
    to write comes after exactly [pid - b] further barriers. *)
Definition turns_pending (b : nat) (cfg : list trace) : Prop :=
  forall pid t, nth_error cfg pid = Some t ->
    forall pre e rest, t = pre ++ e :: rest -> is_barrier e = false ->
      (b + count_barriers pre)%nat = pid.

(** What process [p] does in [log lvl msg] on its turns from index [k]
    on, when it logs on all ranks. *)
Definition turns (lvl : Level) (msg : string) (k : nat) (p : Process)
  : trace :=
  flat_map (fun i => (if rank (this p) =? i
                      then line_of (this p) lvl msg else [])
                     ++ [Barrier (comm (this p))])
           (iota (Z.of_nat k) (size (this p))).

(** The same process in the barrier that ends turn [k]. *)
Definition waiting (lvl : Level) (msg : string) (k : nat) (p : Process)
  : trace :=
  Barrier (comm (this p)) :: turns lvl msg (S k) p.

(** What the collector sees when the processes [procs], of ranks [k],
    [k + 1], ... write their lines one after the other. *)
Fixpoint lines_in_rank_order (lvl : Level) (msg : string) (k : nat)
    (procs : list Process) : list (nat * event) :=
  match procs with
  | [] => []
  | p :: procs' =>
      map (pair k) (line_of (this p) lvl msg)
      ++ lines_in_rank_order lvl msg (S k) procs'
  end.

(** ** Programs *)

Definition is_abort (c : call) : bool :=
  match c with
  | call_abort _ => true
  | _ => false
  end.

(** Call sequences that never abort. *)
Definition abort_free (cs : list call) : bool :=
  forallb (fun c => negb (is_abort c)) cs.

(** Call sequences in which every [timer_stop] closes a [timer_start]
    made before it, and every [timer_start] is closed. *)
Inductive balanced : list call -> Prop :=
  | balanced_nil : balanced []
  | balanced_log : forall lvl msg cs,
      balanced cs -> balanced (call_log lvl msg :: cs)
  | balanced_timer : forall lvl name inner rest,
      balanced inner -> balanced rest ->
      balanced (call_timer_start lvl name :: inner ++ call_timer_stop :: rest).

(** Every timer that [cs] starts is started at a level that manager [m]
    acts on. *)
Definition starts_pass (m : MPIManager) (cs : list call) : Prop :=
  forall lvl name, In (call_timer_start lvl name) cs ->
    sufficient_level m lvl = true.

(** A clock that never goes back. *)
Definition monotone_clock (P : Platform) : Prop :=
  forall i j, (i <= j)%nat -> clock_now P i <= clock_now P j.

(** A 64-bit signed tick count: what is stored when the mathematical
    result of an operation on tick counts is [z]. *)
Definition wrap_int64 (z : Z) : Z := (z + 2 ^ 63) mod 2 ^ 64 - 2 ^ 63.

(** The readings of the clock are times since the epoch, in ticks that
    fit the 64-bit count of [std::chrono]. *)
Definition clock_since_epoch (P : Platform) : Prop :=
  forall i, 0 <= clock_now P i < 2 ^ 63.

(** The timers of [ts] were started at readings of the clock that come
    before the [k]-th. *)
Definition read_before (P : Platform) (k : nat) (ts : list Timer.t) : Prop :=
  Forall (fun t => exists i, (i < k)%nat /\ Timer.start t = clock_now P i) ts.

(** From the bottom of the stack to its top, start times do not
    decrease. *)
Fixpoint starts_ordered (ts : list Timer.t) : Prop :=
  match ts with
  | [] => True
  | t :: ts' =>
      Forall (fun t' => Timer.start t <= Timer.start t') ts' /\
      starts_ordered ts'
  end.

(** Every process of the group has done all it had to do. *)
Definition all_done (cfg : list trace) : Prop := Forall (fun t => t = []) cfg.

(** ** Concrete platforms and processes, for the examples *)

Definition example_platform : Platform :=
  mkPlatform (fun n => 100 + 5 * Z.of_nat n)
             (fun _ t => fmt_int t) (fun _ d => fmt_int d) 1.

(** A platform whose clock stands still after a thousand readings. *)
Definition example_bounded_platform : Platform :=
  mkPlatform (fun n => 100 + 5 * Z.of_nat (Nat.min n 1000))
             (fun _ t => fmt_int t) (fun _ d => fmt_int d) 1.

Definition example_world (r n : Z) : MPI_World :=
  mkWorld 91 (fun _ => r) (fun _ => n).

Definition example_process (r n : Z) (lvl : Level) (rs : Ranks) : Process :=
  snd (MPIManager_ctor (example_world r n) lvl rs).


(** * Properties *)

(** ** Ranges *)

Lemma iota_nil (lo hi : Z) : hi <= lo -> iota lo hi = [].
Proof.
  intros H. unfold iota.
  replace (Z.to_nat (hi - lo)) with 0%nat by lia. reflexivity.
Qed.

Lemma iota_cons (lo hi : Z) : lo < hi -> iota lo hi = lo :: iota (lo + 1) hi.
Proof.
  intros H. unfold iota.
  replace (Z.to_nat (hi - lo)) with (S (Z.to_nat (hi - (lo + 1)))) by lia.
  cbn [seq map]. f_equal; [lia|].
  rewrite <- seq_shift, map_map.
  apply map_ext. intros k. lia.
Qed.

Lemma iota_ind (Q : Z -> Z -> Prop) :
  (forall lo hi, hi <= lo -> Q lo hi) ->
  (forall lo hi, lo < hi -> Q (lo + 1) hi -> Q lo hi) ->
  forall lo hi, Q lo hi.
Proof.
  intros Hnil Hcons lo hi.
  remember (Z.to_nat (hi - lo)) as k eqn:Hk.
  revert lo Hk. induction k as [|k IH]; intros lo Hk.
  - apply Hnil. lia.
  - apply Hcons; [lia|]. apply IH. lia.
Qed.

(** ** Running the member functions *)

Lemma for_each_emit {A} (body : A -> M unit) (g : A -> trace) p :
  (forall x, body x p = (g x, Returned tt p)) ->
  forall xs, for_each xs body p = (flat_map g xs, Returned tt p).
Proof.
  intros Hbody xs. induction xs as [|x xs IH]; [reflexivity|].
  cbn [for_each flat_map]. unfold bind. rewrite Hbody, IH. reflexivity.
Qed.

Lemma log_level_run lvl msg p :
  log_level lvl msg p = (line_of (this p) lvl msg, Returned tt p).
Proof. destruct lvl; reflexivity. Qed.

Lemma line_of_prints m lvl msg : prints (line_of m lvl msg) = line_of m lvl msg.
Proof. destruct lvl; reflexivity. Qed.

Lemma log_on_ranks_run (f : string -> M unit) msg p line :
  f msg p = (line, Returned tt p) ->
  log_on_ranks f msg p = (on_ranks_trace (this p) line, Returned tt p).
Proof.
  intros Hf. unfold log_on_ranks, on_ranks_trace, bind, get.
  destruct (ranks (this p)).
  - unfold when. destruct (0 =? rank (this p)); [rewrite Hf|]; reflexivity.
  - rewrite for_each_emit
      with (g := fun i => (if rank (this p) =? i then line else [])
                          ++ [Barrier (comm (this p))]); [reflexivity|].
    intros i. unfold when. destruct (rank (this p) =? i).
    + rewrite Hf. reflexivity.
    + reflexivity.
Qed.

Lemma log_run lvl msg p :
  log lvl msg p = (log_trace (this p) lvl msg, Returned tt p).
Proof.
  unfold log, log_trace, bind, get, when.
  destruct (sufficient_rank (this p) && sufficient_level (this p) lvl)%bool;
    [|reflexivity].
  assert (H : log_on_ranks (log_level lvl) msg p =
              (on_ranks_trace (this p) (line_of (this p) lvl msg),
               Returned tt p))
    by (apply log_on_ranks_run, log_level_run).
  destruct lvl; cbn [log_level] in H; rewrite H; reflexivity.
Qed.

(** ** The timer stack *)

Arguments log lvl msg p : simpl never.
Arguments String.append s1 s2 : simpl never.

Lemma back_snoc {A} (v : list A) (x : A) : back (v ++ [x]) = Some x.
Proof.
  induction v as [|y v IH]; [reflexivity|].
  cbn [app back]. rewrite IH. destruct (v ++ [x]) eqn:E; [|reflexivity].
  destruct v; discriminate.
Qed.

Lemma pop_back_snoc {A} (v : list A) (x : A) : pop_back (v ++ [x]) = v.
Proof. apply removelast_last. Qed.

Lemma empty_snoc {A} (v : list A) (x : A) : empty (v ++ [x]) = false.
Proof. destruct v; reflexivity. Qed.

Lemma snoc_cases {A} (v : list A) : v = [] \/ exists v' x, v = v' ++ [x].
Proof.
  destruct v as [|y v] using rev_ind; [left; reflexivity|].
  right. exists v, y. reflexivity.
Qed.

Lemma update_timers_same m : update_timers m (timers m) = m.
Proof. destruct m; reflexivity. Qed.

Section EngineRuns.

Variable P : Platform.

Lemma timer_start_run lvl name p :
  timer_start P lvl name p =
  if (sufficient_rank (this p) && sufficient_level (this p) lvl)%bool
  then
    (on_ranks_trace (this p)
       (line_of (this p) lvl
          (start_message P name (clock_now P (clock_reads p)))),
     Returned tt
       (mkProcess
          (update_timers (this p)
             (timers (this p)
              ++ [Timer.make (clock_now P (clock_reads p)) lvl name]))
          (S (clock_reads p))))
  else ([], Returned tt p).
Proof.
  unfold timer_start, bind, get, when.
  destruct (sufficient_rank (this p) && sufficient_level (this p) lvl)%bool
    eqn:Hok; [|reflexivity].
  cbn. unfold emplace_back. rewrite back_snoc, log_run.
  unfold log_trace. cbn [this].
  change (sufficient_rank (update_timers (this p) _))
    with (sufficient_rank (this p)).
  change (sufficient_level (update_timers (this p) _) lvl)
    with (sufficient_level (this p) lvl).
  rewrite Hok. cbn. f_equal.
  destruct lvl; reflexivity.
Qed.

Lemma timer_stop_empty p :
  timers (this p) = [] -> timer_stop P p = ([], Returned tt p).
Proof.
  intros H. unfold timer_stop, bind, get, when. rewrite H. cbn.
  rewrite andb_false_r. reflexivity.
Qed.

Lemma timer_stop_filtered p :
  sufficient_rank (this p) = false -> timer_stop P p = ([], Returned tt p).
Proof.
  intros H. unfold timer_stop, bind, get, when. rewrite H. reflexivity.
Qed.

Lemma timer_stop_run p ts t :
  timers (this p) = ts ++ [t] ->
  sufficient_rank (this p) = true ->
  timer_stop P p =
  (log_trace (this p) (Timer.level t)
     (stop_message P t (clock_now P (clock_reads p))),
   Returned tt
     (mkProcess (update_timers (this p) ts) (S (clock_reads p)))).
Proof.
  intros Hts Hrank. unfold timer_stop, bind, get, when.
  rewrite Hrank, Hts, empty_snoc. cbn. rewrite Hts, back_snoc, log_run.
  cbn. rewrite Hts, pop_back_snoc, app_nil_r. reflexivity.
Qed.

End EngineRuns.

(** ** What a trace shows *)

Lemma prints_app tr tr' : prints (tr ++ tr') = prints tr ++ prints tr'.
Proof. apply filter_app. Qed.

Lemma prints_round_robin r c line :
  prints line = line ->
  forall lo hi,
    prints (flat_map (fun i => (if r =? i then line else []) ++ [Barrier c])
                     (iota lo hi))
    = if ((lo <=? r) && (r <? hi))%bool then line else [].
Proof.
  intros Hline lo hi. pattern lo, hi. apply iota_ind; clear lo hi.
  - intros lo hi H. rewrite iota_nil by exact H. cbn.
    destruct (lo <=? r) eqn:E1, (r <? hi) eqn:E2; try reflexivity. lia.
  - intros lo hi H IH. rewrite iota_cons by exact H.
    cbn [flat_map]. rewrite !prints_app, IH. cbn [prints filter is_print app].
    rewrite app_nil_r. destruct (r =? lo) eqn:E.
    + apply Z.eqb_eq in E. subst lo.
      replace (r + 1 <=? r) with false by lia. cbn [andb].
      replace (r <=? r) with true by lia.
      replace (r <? hi) with true by lia.
      cbn [andb]. rewrite app_nil_r. exact Hline.
    + apply Z.eqb_neq in E. cbn [app prints filter].
      replace (lo + 1 <=? r) with (lo <=? r) by lia. reflexivity.
Qed.

Lemma prints_on_ranks m line :
  prints line = line ->
  sufficient_rank m = true ->
  (ranks m = all -> valid_identity m) ->
  prints (on_ranks_trace m line) = line.
Proof.
  intros Hline Hrank Hvalid. unfold on_ranks_trace.
  unfold sufficient_rank in Hrank. destruct (ranks m).
  - cbn [Ranks_eqb] in Hrank. rewrite Hrank. exact Hline.
  - rewrite prints_round_robin by exact Hline.
    destruct (Hvalid eq_refl) as [H0 H1].
    replace (0 <=? rank m) with true by lia.
    replace (rank m <? size m) with true by lia. reflexivity.
Qed.

Lemma append_nonempty a b :
  b <> EmptyString -> (a ++ b)%string <> EmptyString.
Proof.
  intros Hb. destruct a; [exact Hb | discriminate].
Qed.

Lemma ends_with_newline_app a b :
  b <> EmptyString ->
  ends_with_newline (a ++ b)%string = ends_with_newline b.
Proof.
  intros Hb. induction a as [|c a IH]; [reflexivity|].
  change (String c a ++ b)%string with (String c (a ++ b)%string).
  cbn [ends_with_newline]. rewrite IH.
  destruct (a ++ b)%string eqn:E; [|reflexivity].
  exfalso. exact (append_nonempty a b Hb E).
Qed.

Lemma count_lines_app tr tr' :
  count_lines (tr ++ tr') = (count_lines tr + count_lines tr')%nat.
Proof. unfold count_lines. rewrite filter_app, length_app. reflexivity. Qed.

Lemma count_lines_prints tr : count_lines (prints tr) = count_lines tr.
Proof.
  unfold count_lines, prints. induction tr as [|e tr IH]; [reflexivity|].
  cbn [filter]. destruct e; cbn [is_print ends_line filter]; try exact IH.
  destruct (ends_with_newline text); cbn [List.length]; rewrite IH; reflexivity.
Qed.

Lemma count_lines_line_of m lvl msg : count_lines (line_of m lvl msg) = 1%nat.
Proof.
  assert (H1 : forall x, ends_with_newline ("Rank " ++ x ++ ": ")%string = false).
  { intros x. rewrite ends_with_newline_app
      by (apply append_nonempty; discriminate).
    rewrite ends_with_newline_app by discriminate. reflexivity. }
  assert (H2 : ends_with_newline (": " ++ msg ++ newline)%string = true).
  { rewrite ends_with_newline_app
      by (apply append_nonempty; discriminate).
    rewrite ends_with_newline_app by discriminate. reflexivity. }
  destruct lvl;
    unfold count_lines, line_of, trace_of, log_level, log_emerg, log_alert,
      log_crit, log_err, log_warning, log_notice, log_info, log_debug,
      bind, get, print, emit;
    cbn [fst app this filter ends_line];
    change (fmt_format "Rank {}: " [fmt_int (rank m)])
      with ("Rank " ++ fmt_int (rank m) ++ ": ")%string;
    change (fmt_format (": {}" ++ newline) [msg])
      with (": " ++ msg ++ newline)%string;
    rewrite H1, H2; reflexivity.
Qed.

Lemma line_of_update_timers m ts lvl msg :
  line_of (update_timers m ts) lvl msg = line_of m lvl msg.
Proof. destruct lvl; reflexivity. Qed.

Lemma log_trace_update_timers m ts lvl msg :
  log_trace (update_timers m ts) lvl msg = log_trace m lvl msg.
Proof.
  unfold log_trace. rewrite line_of_update_timers. reflexivity.
Qed.

Lemma count_lines_on_ranks m line :
  prints line = line ->
  sufficient_rank m = true ->
  (ranks m = all -> valid_identity m) ->
  count_lines (on_ranks_trace m line) = count_lines line.
Proof.
  intros Hline Hrank Hvalid.
  rewrite <- count_lines_prints, prints_on_ranks by assumption. reflexivity.
Qed.

Lemma on_ranks_trace_events m line :
  prints line = line ->
  Forall (fun e => is_log_event e = true) (on_ranks_trace m line).
Proof.
  intros Hline.
  assert (Hl : Forall (fun e => is_log_event e = true) line).
  { apply Forall_forall. intros e Hin. rewrite <- Hline in Hin.
    apply filter_In in Hin. unfold is_log_event. rewrite (proj2 Hin).
    reflexivity. }
  unfold on_ranks_trace. destruct (ranks m).
  - destruct (0 =? rank m); [exact Hl|constructor].
  - apply Forall_flat_map. apply Forall_forall. intros i _.
    apply Forall_app. split.
    + destruct (rank m =? i); [exact Hl|constructor].
    + constructor; [reflexivity|constructor].
Qed.

Lemma log_trace_events m lvl msg :
  Forall (fun e => is_log_event e = true) (log_trace m lvl msg).
Proof.
  unfold log_trace.
  destruct (sufficient_rank m && sufficient_level m lvl)%bool; [|constructor].
  apply on_ranks_trace_events, line_of_prints.
Qed.

Section Destruction.

Variable P : Platform.

Lemma bind_run {A B} (m : M A) (f : A -> M B) p tr a p' :
  m p = (tr, Returned a p') ->
  bind m f p = (tr ++ trace_of (f a p'), outcome_of (f a p')).
Proof.
  intros H. unfold bind. rewrite H. destruct (f a p'); reflexivity.
Qed.

Lemma for_each_emit_in {A} (body : A -> M unit) (g : A -> trace) p :
  forall xs,
    (forall x, In x xs -> body x p = (g x, Returned tt p)) ->
    for_each xs body p = (flat_map g xs, Returned tt p).
Proof.
  induction xs as [|x xs IH]; intros Hbody; [reflexivity|].
  cbn [for_each flat_map]. unfold bind.
  rewrite (Hbody x (or_introl eq_refl)).
  rewrite IH by (intros y Hy; apply Hbody; right; exact Hy). reflexivity.
Qed.

(** One iteration of the loop of the destructor, at position [it]. *)
Lemma dtor_iteration_run p ts t it :
  timers (this p) = ts ++ [t] ->
  sufficient_rank (this p) = true ->
  (it <= List.length ts)%nat ->
  (ts' <- get timers ;;
   match nth_error ts' it with
   | Some timer => timer_stop P
   | None => undefined_behaviour
   end) p =
  (log_trace (this p) (Timer.level t)
     (stop_message P t (clock_now P (clock_reads p))),
   Returned tt (mkProcess (update_timers (this p) ts) (S (clock_reads p)))).
Proof.
  intros Hts Hrank Hit. unfold bind, get.
  destruct (nth_error (timers (this p)) it) as [timer|] eqn:Hnth.
  - rewrite (timer_stop_run P p ts t Hts Hrank). reflexivity.
  - apply nth_error_None in Hnth. rewrite Hts, length_app in Hnth.
    cbn [List.length] in Hnth. lia.
Qed.

Lemma dtor_run_empty p :
  timers (this p) = [] ->
  MPIManager_dtor P p = ([Finalize], Returned tt p).
Proof.
  intros H. unfold MPIManager_dtor, bind, get, when. rewrite H. reflexivity.
Qed.

(** When the rank filter fails no timer is popped, and the loop of the
    destructor visits every position without effect. *)
Lemma dtor_run_filtered p :
  sufficient_rank (this p) = false ->
  MPIManager_dtor P p = ([Finalize], Returned tt p).
Proof.
  intros Hrank. unfold MPIManager_dtor.
  unfold bind at 1. unfold get at 1.
  destruct (empty (timers (this p))) eqn:Hempty; cbn [negb when].
  - reflexivity.
  - unfold bind at 1. unfold bind at 1.
    rewrite log_run. unfold log_trace. rewrite Hrank. cbn [andb].
    unfold bind at 1. unfold get at 1.
    rewrite (for_each_emit_in _ (fun _ => []) p).
    + clear Hempty. induction (seq 0 (List.length (timers (this p))));
        [reflexivity|assumption].
    + intros it Hin. apply in_seq in Hin. unfold bind, get.
      destruct (nth_error (timers (this p)) it) eqn:Hnth.
      * rewrite (timer_stop_filtered P p Hrank). reflexivity.
      * apply nth_error_None in Hnth. lia.
Qed.

(** With one timer open the loop has one iteration, on a live element. *)
Lemma dtor_run_single p t :
  timers (this p) = [t] ->
  sufficient_rank (this p) = true ->
  MPIManager_dtor P p =
  (log_trace (this p) warning destruction_warning
   ++ log_trace (this p) (Timer.level t)
        (stop_message P t (clock_now P (clock_reads p)))
   ++ [Finalize],
   Returned tt
     (mkProcess (update_timers (this p) []) (S (clock_reads p)))).
Proof.
  intros Hts Hrank. unfold MPIManager_dtor.
  unfold bind at 1. unfold get at 1. rewrite Hts. cbn [empty negb when].
  unfold bind at 1. unfold bind at 1. rewrite log_run.
  unfold bind at 1. unfold get at 1. rewrite Hts.
  cbn [List.length seq for_each]. unfold bind at 1.
  rewrite (dtor_iteration_run p [] t 0 Hts Hrank (Nat.le_refl 0)).
  unfold ret, MPI_Finalize, emit. cbn [app].
  rewrite app_nil_r, <- app_assoc. reflexivity.
Qed.

(** Whatever the number of open timers, the destructor begins with the
    warning and the stop of the timer started last. *)
Lemma dtor_run_first p ts t :
  timers (this p) = ts ++ [t] ->
  sufficient_rank (this p) = true ->
  exists rest,
    trace_of (MPIManager_dtor P p) =
    log_trace (this p) warning destruction_warning
    ++ log_trace (this p) (Timer.level t)
         (stop_message P t (clock_now P (clock_reads p)))
    ++ rest.
Proof.
  intros Hts Hrank. unfold MPIManager_dtor.
  unfold bind at 1. unfold get at 1. rewrite Hts, empty_snoc.
  cbn [negb when].
  unfold bind at 1. unfold bind at 1. rewrite log_run.
  unfold bind at 1. unfold get at 1. rewrite Hts, length_app.
  cbn [List.length]. rewrite Nat.add_1_r. cbn [seq for_each].
  rewrite (bind_run _ _ p _ tt _
             (dtor_iteration_run p ts t 0 Hts Hrank (Nat.le_0_l _))).
  destruct (for_each (seq 1 (List.length ts)) _ _) as [tr1 [[] p1|p1 st|p1]];
    cbn [trace_of outcome_of fst snd].
  - destruct (MPI_Finalize p1) as [tr2 o2].
    exists (tr1 ++ tr2). cbn [trace_of fst app].
    rewrite <- !app_assoc. reflexivity.
  - exists tr1. reflexivity.
  - exists tr1. reflexivity.
Qed.

End Destruction.

(** ** Calls *)

Lemma abort_run P msg p :
  abort P msg p =
  (line_of (this p) emerg msg ++ [Abort (comm (this p)) (EXIT_FAILURE P)],
   Terminated p (EXIT_FAILURE P)).
Proof. reflexivity. Qed.

(** A call leaves the process as it is, apart from the timer stack and
    the clock. *)
Lemma invoke_final P c p :
  exists ts k,
    final_process (invoke P c p) = mkProcess (update_timers (this p) ts) k.
Proof.
  assert (Hsame : exists ts k, p = mkProcess (update_timers (this p) ts) k).
  { exists (timers (this p)), (clock_reads p).
    rewrite update_timers_same. destruct p; reflexivity. }
  destruct c as [lvl msg|lvl name| |msg]; cbn [invoke].
  - rewrite log_run. exact Hsame.
  - rewrite timer_start_run.
    destruct (sufficient_rank (this p) && sufficient_level (this p) lvl)%bool;
      [|exact Hsame].
    eexists _, _. reflexivity.
  - destruct (snoc_cases (timers (this p))) as [Hts|(ts & t & Hts)].
    + rewrite timer_stop_empty by exact Hts. exact Hsame.
    + destruct (sufficient_rank (this p)) eqn:Hrank.
      * rewrite (timer_stop_run P p ts t Hts Hrank). eexists _, _. reflexivity.
      * rewrite timer_stop_filtered by exact Hrank. exact Hsame.
  - rewrite abort_run. exact Hsame.
Qed.

Lemma invoke_admitted P c p tr p' :
  timers_admitted (this p) ->
  invoke P c p = (tr, Returned tt p') ->
  timers_admitted (this p').
Proof.
  intros Hadm Hrun.
  destruct c as [lvl msg|lvl name| |msg]; cbn [invoke] in Hrun.
  - rewrite log_run in Hrun. injection Hrun as _ <-. exact Hadm.
  - rewrite timer_start_run in Hrun.
    destruct (sufficient_rank (this p) && sufficient_level (this p) lvl)%bool
      eqn:Hok; injection Hrun as _ <-; [|exact Hadm].
    apply andb_prop in Hok. intros t Hin. cbn in Hin.
    apply in_app_or in Hin. destruct Hin as [Hin|[<-|[]]].
    + exact (Hadm t Hin).
    + exact Hok.
  - destruct (snoc_cases (timers (this p))) as [Hts|(ts & t & Hts)].
    + rewrite timer_stop_empty in Hrun by exact Hts.
      injection Hrun as _ <-. exact Hadm.
    + destruct (sufficient_rank (this p)) eqn:Hrank.
      * rewrite (timer_stop_run P p ts t Hts Hrank) in Hrun.
        injection Hrun as _ <-. intros t' Hin. cbn in Hin.
        apply (Hadm t'). rewrite Hts.
        apply in_or_app. left. exact Hin.
      * rewrite timer_stop_filtered in Hrun by exact Hrank.
        injection Hrun as _ <-. exact Hadm.
  - rewrite abort_run in Hrun. discriminate.
Qed.

Lemma reachable_admitted P W p : reachable P W p -> timers_admitted (this p).
Proof.
  induction 1 as [lvl rs|p c tr p' _ IH Hrun].
  - intros t [].
  - exact (invoke_admitted P c p tr p' IH Hrun).
Qed.

Lemma admitted_top m ts t :
  timers_admitted m -> timers m = ts ++ [t] ->
  sufficient_rank m = true /\ sufficient_level m (Timer.level t) = true.
Proof.
  intros Hadm Hts. apply Hadm. rewrite Hts.
  apply in_or_app. right. left. reflexivity.
Qed.

Lemma timer_stop_admitted P p ts t :
  timers_admitted (this p) ->
  timers (this p) = ts ++ [t] ->
  timer_stop P p =
  (on_ranks_trace (this p)
     (line_of (this p) (Timer.level t)
        (stop_message P t (clock_now P (clock_reads p)))),
   Returned tt (mkProcess (update_timers (this p) ts) (S (clock_reads p)))).
Proof.
  intros Hadm Hts. destruct (admitted_top (this p) ts t Hadm Hts) as [Hrank Hlevel].
  rewrite (timer_stop_run P p ts t Hts Hrank). unfold log_trace.
  rewrite Hrank, Hlevel. reflexivity.
Qed.

Lemma line_of_nonempty m lvl msg : line_of m lvl msg <> [].
Proof. destruct lvl; discriminate. Qed.

(** ** Groups: the barrier orders the output *)

Lemma nth_error_replace_nth {A} (l : list A) n x i y :
  nth_error (replace_nth n x l) i = Some y ->
  (i = n /\ y = x) \/ (i <> n /\ nth_error l i = Some y).
Proof.
  revert n i. induction l as [|a l IH]; intros n i H.
  - destruct n, i; discriminate.
  - destruct n as [|n], i as [|i]; cbn in H.
    + left. split; congruence.
    + right. split; [discriminate|exact H].
    + right. split; [discriminate|exact H].
    + destruct (IH n i H) as [[-> ->]|[Hne Hy]].
      * left. split; reflexivity.
      * right. split; [congruence|exact Hy].
Qed.

Lemma nth_error_map_inv {A B} (f : A -> B) (l : list A) i y :
  nth_error (map f l) i = Some y ->
  exists x, nth_error l i = Some x /\ y = f x.
Proof.
  revert i. induction l as [|a l IH]; intros [|i] H; try discriminate.
  - injection H as <-. exists a. split; reflexivity.
  - exact (IH i H).
Qed.

Lemma step_run_turn b cfg pid out cfg' :
  turns_pending b cfg ->
  step (Run pid) cfg = Some (out, cfg') ->
  pid = b /\ (exists e, out = [(pid, e)]) /\ turns_pending b cfg'.
Proof.
  intros Hinv Hstep. cbn [step] in Hstep.
  destruct (nth_error cfg pid) as [[|e rest]|] eqn:Hnth; try discriminate.
  destruct (is_barrier e) eqn:He; [discriminate|].
  injection Hstep as <- <-.
  pose proof (Hinv pid (e :: rest) Hnth [] e rest eq_refl He) as Hb.
  cbn in Hb. split; [lia|]. split; [exists e; reflexivity|].
  intros pid' t' Hnth' pre e' rest' Ht' He'.
  apply nth_error_replace_nth in Hnth'.
  destruct Hnth' as [[-> ->]|[_ Hnth']].
  - pose proof (Hinv pid (e :: rest) Hnth (e :: pre) e' rest') as H.
    cbn [app] in H. rewrite Ht' in H. specialize (H eq_refl He').
    unfold count_barriers in *. cbn [filter] in H. rewrite He in H. exact H.
  - exact (Hinv pid' t' Hnth' pre e' rest' Ht' He').
Qed.

Lemma step_sync_turn b cfg out cfg' :
  turns_pending b cfg ->
  step Sync cfg = Some (out, cfg') ->
  out = [] /\ turns_pending (S b) cfg'.
Proof.
  intros Hinv Hstep. cbn [step] in Hstep.
  destruct (forallb at_barrier cfg) eqn:Hall; [|discriminate].
  injection Hstep as <- <-. split; [reflexivity|].
  intros pid t' Hnth pre e rest Ht' He.
  apply nth_error_map_inv in Hnth. destruct Hnth as (t & Hcfg & ->).
  rewrite forallb_forall in Hall.
  pose proof (Hall t (nth_error_In _ _ Hcfg)) as Hbar.
  destruct t as [|e0 t]; [discriminate|]. cbn in Hbar, Ht'.
  pose proof (Hinv pid (e0 :: t) Hcfg (e0 :: pre) e rest) as H.
  cbn [app] in H. rewrite Ht' in H. specialize (H eq_refl He).
  unfold count_barriers in *. cbn [filter] in H. rewrite Hbar in H.
  cbn [List.length] in H. lia.
Qed.

Lemma nondecreasing_cons_lower b l :
  Forall (fun y => (b <= y)%nat) l -> nondecreasing l -> nondecreasing (b :: l).
Proof. intros H1 H2. split; assumption. Qed.

Lemma run_turns sched : forall b cfg out cfg',
  turns_pending b cfg ->
  run sched cfg = Some (out, cfg') ->
  Forall (fun y => (b <= y)%nat) (map fst out) /\ nondecreasing (map fst out).
Proof.
  induction sched as [|a sched IH]; intros b cfg out cfg' Hinv Hrun.
  - injection Hrun as <- <-. split; constructor.
  - cbn [run] in Hrun.
    destruct (step a cfg) as [[out1 cfg1]|] eqn:Hstep; [|discriminate].
    destruct (run sched cfg1) as [[out2 cfg2]|] eqn:Hrest; [|discriminate].
    injection Hrun as <- <-. rewrite map_app.
    destruct a as [pid|].
    + destruct (step_run_turn b cfg pid out1 cfg1 Hinv Hstep)
        as (-> & [e ->] & Hinv1).
      destruct (IH b cfg1 out2 cfg2 Hinv1 Hrest) as [Hlow Hsorted].
      cbn [map fst app]. split.
      * constructor; [lia|exact Hlow].
      * apply nondecreasing_cons_lower; assumption.
    + destruct (step_sync_turn b cfg out1 cfg1 Hinv Hstep) as [-> Hinv1].
      destruct (IH (S b) cfg1 out2 cfg2 Hinv1 Hrest) as [Hlow Hsorted].
      cbn [map app]. split; [|exact Hsorted].
      eapply Forall_impl; [|exact Hlow]. cbn. intros y Hy. lia.
Qed.

(** Where a trace of the form [line ++ Barrier c :: tail] can be cut in
    front of an event that is not a barrier. *)
Lemma turn_split c line : forall tail pre e rest,
  prints line = line ->
  line ++ Barrier c :: tail = pre ++ e :: rest ->
  is_barrier e = false ->
  (count_barriers pre = 0%nat /\ In e line) \/
  (exists pre', pre = line ++ Barrier c :: pre' /\ tail = pre' ++ e :: rest).
Proof.
  induction line as [|a line IH]; intros tail pre e rest Hline Heq He.
  - destruct pre as [|x pre]; cbn [app] in Heq.
    + injection Heq as <- _. discriminate.
    + injection Heq as <- ->. right. exists pre. split; reflexivity.
  - assert (Ha : is_print a = true /\ prints line = line).
    { unfold prints in *. cbn [filter] in Hline.
      destruct (is_print a) eqn:E.
      - injection Hline as H. split; [reflexivity|exact H].
      - pose proof (filter_length_le is_print line) as Hle.
        rewrite Hline in Hle. cbn in Hle. lia. }
    destruct Ha as [Ha Hline'].
    destruct pre as [|x pre]; cbn [app] in Heq.
    + injection Heq as <- _. left. split; [reflexivity|left; reflexivity].
    + injection Heq as <- Heq.
      destruct (IH tail pre e rest Hline' Heq He) as [[H0 Hin]|(pre' & -> & ->)].
      * left. split; [|right; exact Hin].
        unfold count_barriers in *. cbn [filter].
        destruct a; try discriminate. exact H0.
      * right. exists pre'. split; reflexivity.
Qed.

Lemma round_robin_position r c line :
  prints line = line ->
  forall lo hi pre e rest,
    flat_map (fun i => (if r =? i then line else []) ++ [Barrier c])
             (iota lo hi) = pre ++ e :: rest ->
    is_barrier e = false ->
    Z.of_nat (count_barriers pre) = r - lo.
Proof.
  intros Hline lo hi. pattern lo, hi. apply iota_ind; clear lo hi.
  - intros lo hi H pre e rest Heq _. rewrite iota_nil in Heq by exact H.
    destruct pre; discriminate.
  - intros lo hi H IH pre e rest Heq He. rewrite iota_cons in Heq by exact H.
    cbn [flat_map] in Heq. rewrite <- app_assoc in Heq. cbn [app] in Heq.
    destruct (r =? lo) eqn:E.
    + apply Z.eqb_eq in E. subst lo.
      destruct (turn_split c line _ pre e rest Hline Heq He)
        as [[H0 _]|(pre' & -> & Htail)].
      * lia.
      * specialize (IH pre' e rest Htail He). lia.
    + apply Z.eqb_neq in E.
      destruct (turn_split c [] _ pre e rest eq_refl Heq He)
        as [[_ []]|(pre' & -> & Htail)].
      specialize (IH pre' e rest Htail He).
      cbn [app]. unfold count_barriers in *. cbn [filter is_barrier List.length].
      lia.
Qed.

(** The traces of a group whose processes all call [log lvl msg]. *)
Lemma group_log_turns procs lvl msg :
  is_group procs ->
  (forall p, In p procs -> sufficient_level (this p) lvl = true) ->
  turns_pending 0 (map (fun p => trace_of (log lvl msg p)) procs).
Proof.
  intros Hgroup Hlevel pid t Hnth pre e rest Ht He.
  apply nth_error_map_inv in Hnth. destruct Hnth as (p & Hp & ->).
  destruct (Hgroup pid p Hp) as (Hrank & Hsize & Hall).
  rewrite log_run in Ht. cbn [trace_of fst] in Ht.
  unfold log_trace, sufficient_rank, on_ranks_trace in Ht.
  rewrite Hall in Ht. cbn [Ranks_eqb andb] in Ht.
  rewrite (Hlevel p (nth_error_In _ _ Hp)) in Ht.
  pose proof (round_robin_position (rank (this p)) (comm (this p))
                (line_of (this p) lvl msg) (line_of_prints _ _ _)
                0 (size (this p)) pre e rest Ht He) as H.
  cbn [Nat.add]. lia.
Qed.

(** ** Groups: the round-robin schedule runs to completion *)

Lemma run_app s1 : forall s2 cfg,
  run (s1 ++ s2) cfg =
  match run s1 cfg with
  | Some (o1, c1) =>
      match run s2 c1 with
      | Some (o2, c2) => Some (o1 ++ o2, c2)
      | None => None
      end
  | None => None
  end.
Proof.
  induction s1 as [|a s1 IH]; intros s2 cfg.
  - cbn. destruct (run s2 cfg) as [[o2 c2]|]; reflexivity.
  - cbn [app run]. destruct (step a cfg) as [[o c]|]; [|reflexivity].
    rewrite IH. destruct (run s1 c) as [[o1 c1]|]; [|reflexivity].
    destruct (run s2 c1) as [[o2 c2]|]; [|reflexivity].
    rewrite app_assoc. reflexivity.
Qed.

Lemma nth_error_replace_nth_eq {A} (l : list A) : forall n x,
  (n < List.length l)%nat -> nth_error (replace_nth n x l) n = Some x.
Proof.
  induction l as [|a l IH]; intros [|n] x H; cbn in *; try lia.
  - reflexivity.
  - apply IH. lia.
Qed.

Lemma nth_error_replace_nth_neq {A} (l : list A) : forall n x i,
  i <> n -> nth_error (replace_nth n x l) i = nth_error l i.
Proof.
  induction l as [|a l IH]; intros [|n] x [|i] H; cbn; try reflexivity.
  - congruence.
  - apply IH. congruence.
Qed.

Lemma replace_nth_twice {A} (l : list A) : forall n x y,
  replace_nth n y (replace_nth n x l) = replace_nth n y l.
Proof.
  induction l as [|a l IH]; intros [|n] x y; cbn; try reflexivity.
  rewrite IH. reflexivity.
Qed.

(** A process whose next events are the prints [l] can write them all. *)
Lemma run_local pid l : forall cfg rest,
  prints l = l ->
  nth_error cfg pid = Some (l ++ rest) ->
  run (repeat (Run pid) (List.length l)) cfg =
  Some (map (pair pid) l, replace_nth pid rest cfg).
Proof.
  induction l as [|e l IH]; intros cfg rest Hl Hnth.
  - cbn. f_equal. f_equal. symmetry.
    apply nth_error_ext. intros i. destruct (Nat.eq_dec i pid) as [->|Hne].
    + rewrite nth_error_replace_nth_eq; [symmetry; exact Hnth|].
      apply nth_error_Some. rewrite Hnth. discriminate.
    + apply nth_error_replace_nth_neq. exact Hne.
  - assert (He : is_print e = true /\ prints l = l).
    { unfold prints in *. cbn [filter] in Hl. destruct (is_print e) eqn:E.
      - injection Hl as H. split; [reflexivity|exact H].
      - pose proof (filter_length_le is_print l) as Hle.
        rewrite Hl in Hle. cbn in Hle. lia. }
    destruct He as [He Hl'].
    cbn [List.length repeat run step]. rewrite Hnth. cbn [app].
    replace (is_barrier e) with false by (destruct e; try discriminate; reflexivity).
    rewrite (IH (replace_nth pid (l ++ rest) cfg) rest Hl').
    + rewrite replace_nth_twice. reflexivity.
    + apply nth_error_replace_nth_eq. apply nth_error_Some.
      rewrite Hnth. discriminate.
Qed.

Lemma skipn_nth_error {A} (l : list A) : forall k x,
  nth_error l k = Some x -> skipn k l = x :: skipn (S k) l.
Proof.
  induction l as [|a l IH]; intros [|k] x H; try discriminate.
  - injection H as ->. reflexivity.
  - cbn [skipn]. rewrite (IH k x H). reflexivity.
Qed.

Lemma line_of_length m lvl msg : List.length (line_of m lvl msg) = 3%nat.
Proof. destruct lvl; reflexivity. Qed.

Section RoundRobin.

Variables (procs : list Process) (lvl : Level) (msg : string).
Hypothesis Hgroup : is_group procs.

Lemma turns_own k p :
  nth_error procs k = Some p ->
  turns lvl msg k p = line_of (this p) lvl msg ++ waiting lvl msg k p.
Proof.
  intros Hp. destruct (Hgroup k p Hp) as (Hrank & Hsize & _).
  assert (Hk : (k < List.length procs)%nat)
    by (apply nth_error_Some; rewrite Hp; discriminate).
  unfold turns, waiting. rewrite iota_cons by lia. cbn [flat_map].
  replace (rank (this p) =? Z.of_nat k) with true by lia.
  rewrite <- app_assoc.
  replace (Z.of_nat k + 1) with (Z.of_nat (S k)) by lia. reflexivity.
Qed.

Lemma turns_other k i p :
  (k < List.length procs)%nat ->
  nth_error procs i = Some p -> i <> k ->
  turns lvl msg k p = waiting lvl msg k p.
Proof.
  intros Hk Hp Hne. destruct (Hgroup i p Hp) as (Hrank & Hsize & _).
  unfold turns, waiting. rewrite iota_cons by lia. cbn [flat_map].
  replace (rank (this p) =? Z.of_nat k) with false by lia.
  replace (Z.of_nat k + 1) with (Z.of_nat (S k)) by lia. reflexivity.
Qed.

Lemma turns_done p :
  In p procs -> turns lvl msg (List.length procs) p = [].
Proof.
  intros Hin. apply In_nth_error in Hin. destruct Hin as [i Hp].
  destruct (Hgroup i p Hp) as (_ & Hsize & _).
  unfold turns. rewrite iota_nil by lia. reflexivity.
Qed.

(** One round: the process of rank [k] writes its line, then all leave
    the barrier. *)
Lemma run_round k p :
  nth_error procs k = Some p ->
  run (repeat (Run k) 3 ++ [Sync]) (map (turns lvl msg k) procs) =
  Some (map (pair k) (line_of (this p) lvl msg), map (turns lvl msg (S k)) procs).
Proof.
  intros Hp.
  assert (Hk : (k < List.length procs)%nat)
    by (apply nth_error_Some; rewrite Hp; discriminate).
  rewrite run_app. rewrite <- (line_of_length (this p) lvl msg).
  rewrite (run_local k (line_of (this p) lvl msg)
             (map (turns lvl msg k) procs) (waiting lvl msg k p) (line_of_prints _ _ _)).
  2:{ rewrite nth_error_map, Hp. cbn [option_map].
      rewrite (turns_own k p Hp). reflexivity. }
  assert (Hcfg : replace_nth k (waiting lvl msg k p) (map (turns lvl msg k) procs)
                 = map (waiting lvl msg k) procs).
  { apply nth_error_ext. intros i. destruct (Nat.eq_dec i k) as [->|Hne].
    - rewrite nth_error_replace_nth_eq by (rewrite length_map; exact Hk).
      rewrite nth_error_map, Hp. reflexivity.
    - rewrite nth_error_replace_nth_neq by exact Hne.
      rewrite !nth_error_map.
      destruct (nth_error procs i) as [q|] eqn:Hq; [|reflexivity].
      cbn [option_map]. rewrite (turns_other k i q Hk Hq Hne). reflexivity. }
  rewrite Hcfg. cbn [run step].
  replace (forallb at_barrier (map (waiting lvl msg k) procs)) with true.
  - rewrite map_map, app_nil_r. reflexivity.
  - symmetry. apply forallb_forall. intros t Ht.
    apply in_map_iff in Ht. destruct Ht as (q & <- & _). reflexivity.
Qed.

Lemma run_rounds j : forall k,
  (k + j = List.length procs)%nat ->
  run (flat_map (fun i => repeat (Run i) 3 ++ [Sync]) (seq k j))
      (map (turns lvl msg k) procs) =
  Some (lines_in_rank_order lvl msg k (skipn k procs),
        map (fun _ => []) procs).
Proof.
  induction j as [|j IH]; intros k Hk.
  - cbn [seq flat_map run]. rewrite skipn_all2 by lia. cbn. f_equal. f_equal.
    apply map_ext_in. intros p Hin.
    replace k with (List.length procs) by lia. exact (turns_done p Hin).
  - destruct (nth_error procs k) as [p|] eqn:Hp.
    2:{ apply nth_error_None in Hp. lia. }
    cbn [seq flat_map]. rewrite run_app, (run_round k p Hp).
    rewrite (IH (S k)) by lia.
    rewrite (skipn_nth_error procs k p Hp). reflexivity.
Qed.

End RoundRobin.

(** ** The filters and [log] *)

Lemma sufficient_rank_spec m :
  sufficient_rank m = true <-> ranks m = all \/ rank m = 0.
Proof.
  unfold sufficient_rank. destruct (ranks m); cbn [Ranks_eqb].
  - rewrite Z.eqb_eq. split.
    + intros H. right. symmetry. exact H.
    + intros [H|H]; [discriminate|symmetry; exact H].
  - split; [intros _; left; reflexivity|reflexivity].
Qed.

Lemma sufficient_level_spec m lvl :
  sufficient_level m lvl = true <-> Level_ord lvl <= Level_ord (level m).
Proof.
  unfold sufficient_level, Level_leb.
  destruct (Level_ord lvl <=? Level_ord (level m)) eqn:E.
  - apply Z.leb_le in E. split; [intros _; exact E|reflexivity].
  - apply Z.leb_gt in E. split; [discriminate|lia].
Qed.

(** C1. For every level and message, [log lvl msg] writes the line of the
    message if and only if both filters pass: the selector is [all] or the
    rank of the process is 0, and the ordinal of [lvl] is at most that of
    the level fixed at construction.  When a filter fails, [log] does
    nothing at all; in either case it leaves the process as it was.  The
    rank is taken to be one of the group, as MPI guarantees. *)
Theorem log_emits_iff_filters_pass (lvl : Level) (msg : string) (p : Process) :
  (ranks (this p) = all -> valid_identity (this p)) ->
  (sufficient_rank (this p) = true <->
   ranks (this p) = all \/ rank (this p) = 0) /\
  (sufficient_level (this p) lvl = true <->
   Level_ord lvl <= Level_ord (level (this p))) /\
  (prints (trace_of (log lvl msg p)) = line_of (this p) lvl msg <->
   sufficient_rank (this p) = true /\ sufficient_level (this p) lvl = true) /\
  (sufficient_rank (this p) = false \/ sufficient_level (this p) lvl = false ->
   trace_of (log lvl msg p) = []) /\
  outcome_of (log lvl msg p) = Returned tt p.
Proof.
  intros Hvalid.
  split; [apply sufficient_rank_spec|].
  split; [apply sufficient_level_spec|].
  rewrite log_run. cbn [trace_of outcome_of fst snd]. unfold log_trace.
  split; [|split; [|reflexivity]].
  - destruct (sufficient_rank (this p)) eqn:Hrank,
             (sufficient_level (this p) lvl) eqn:Hlevel; cbn [andb].
    + split; [intros _; split; reflexivity|intros _].
      apply prints_on_ranks; [apply line_of_prints|exact Hrank|exact Hvalid].
    + split; [intros H|intros [_ H]; discriminate].
      symmetry in H. destruct (line_of_nonempty _ _ _ H).
    + split; [intros H|intros [H _]; discriminate].
      symmetry in H. destruct (line_of_nonempty _ _ _ H).
    + split; [intros H|intros [H _]; discriminate].
      symmetry in H. destruct (line_of_nonempty _ _ _ H).
  - intros [H|H]; rewrite H; [|rewrite andb_false_r]; reflexivity.
Qed.

Lemma log_emits_iff_filters_pass_witness :
  let p := example_process 1 3 info all in
  valid_identity (this p) /\
  (prints (trace_of (log notice "hello" p)) = line_of (this p) notice "hello"
   <-> sufficient_rank (this p) = true /\
       sufficient_level (this p) notice = true).
Proof.
  intros p.
  assert (Hvalid : valid_identity (this p)) by (unfold valid_identity; cbn; lia).
  split; [exact Hvalid|].
  exact (proj1 (proj2 (proj2
    (log_emits_iff_filters_pass notice "hello" p (fun _ => Hvalid))))).
Defined.

(** C5. Severity filtering is monotone: a level of higher priority than
    one that passes the filter passes it too. *)
Theorem sufficient_level_monotone (m : MPIManager) (s1 s2 : Level) :
  Level_ord s1 <= Level_ord s2 ->
  sufficient_level m s2 = true ->
  sufficient_level m s1 = true.
Proof.
  intros Hle H2. apply sufficient_level_spec.
  apply sufficient_level_spec in H2. lia.
Qed.

Lemma sufficient_level_monotone_witness :
  let m := this (example_process 0 1 info zero) in
  Level_ord err <= Level_ord notice /\
  sufficient_level m notice = true /\
  sufficient_level m err = true.
Proof.
  intros m.
  assert (Hle : Level_ord err <= Level_ord notice) by (cbn; lia).
  assert (H2 : sufficient_level m notice = true) by reflexivity.
  split; [exact Hle|]. split; [exact H2|].
  exact (sufficient_level_monotone m err notice Hle H2).
Defined.

(** ** [abort] *)

(** C3. For every message and every configuration, [abort msg] writes
    exactly one line, at emergency level and with the rank of the caller,
    whatever the filters say, then aborts the group of its communicator
    with a non-zero status; it does not return, and nothing that follows
    it in the program is executed. *)
Theorem abort_renders_and_terminates (P : Platform) (msg : string)
    (p : Process) :
  EXIT_FAILURE P <> 0 ->
  abort P msg p =
    (line_of (this p) emerg msg ++ [Abort (comm (this p)) (EXIT_FAILURE P)],
     Terminated p (EXIT_FAILURE P)) /\
  line_of (this p) emerg msg =
    [Print emphasis_bold ("Rank " ++ fmt_int (rank (this p)) ++ ": ")%string;
     Print (fg dark_red) "[EMERG]";
     Print plain (": " ++ msg ++ newline)%string] /\
  count_lines (trace_of (abort P msg p)) = 1%nat /\
  returns (abort P msg p) = false /\
  (forall k : unit -> M unit, bind (abort P msg) k p = abort P msg p) /\
  (forall c status, In (Abort c status) (trace_of (abort P msg p)) ->
     c = comm (this p) /\ status <> 0).
Proof.
  intros Hfail. rewrite abort_run.
  split; [reflexivity|]. split; [reflexivity|].
  cbn [trace_of fst]. split; [|split; [reflexivity|split]].
  - rewrite count_lines_app, count_lines_line_of. reflexivity.
  - intros k. unfold bind. rewrite abort_run. reflexivity.
  - intros c status Hin. apply in_app_or in Hin.
    destruct Hin as [Hin|[Heq|[]]].
    + cbn in Hin. destruct Hin as [H|[H|[H|[]]]]; discriminate.
    + injection Heq as <- <-. split; [reflexivity|exact Hfail].
Qed.

Lemma abort_renders_and_terminates_witness :
  let p := example_process 2 4 emerg zero in
  EXIT_FAILURE example_platform <> 0 /\
  count_lines (trace_of (abort example_platform "fatal" p)) = 1%nat /\
  returns (abort example_platform "fatal" p) = false.
Proof.
  intros p.
  assert (Hfail : EXIT_FAILURE example_platform <> 0) by (cbn; lia).
  split; [exact Hfail|].
  pose proof (abort_renders_and_terminates example_platform "fatal" p Hfail)
    as (_ & _ & Hcount & Hret & _).
  split; [exact Hcount|exact Hret].
Defined.

(** ** Timers *)

(** C7. On an empty timer stack [timer_stop] does nothing: it writes no
    line, returns, and leaves the process as it was. *)
Theorem timer_stop_on_empty_stack (P : Platform) (p : Process) :
  timers (this p) = [] ->
  timer_stop P p = ([], Returned tt p).
Proof.
  intros H. unfold timer_stop, bind, get, when. rewrite H.
  cbn [empty negb]. rewrite andb_false_r. reflexivity.
Qed.

Lemma timer_stop_on_empty_stack_witness :
  let p := example_process 0 2 debug all in
  timers (this p) = [] /\
  timer_stop example_platform p = ([], Returned tt p).
Proof.
  intros p.
  assert (H : timers (this p) = []) by reflexivity.
  split; [exact H|].
  exact (timer_stop_on_empty_stack example_platform p H).
Defined.

(** C8. For every level and name, [timer_start lvl name] acts if and only
    if both filters pass.  Then it reads the clock, pushes the timer made
    of that time, [lvl] and [name], and logs one line with the name and
    the formatted start time; the trace is that of a passing [log].
    Otherwise it writes nothing and leaves the process, its stack and the
    clock untouched. *)
Theorem timer_start_acts_iff_filters_pass (P : Platform) (lvl : Level)
    (name : string) (p : Process) :
  (ranks (this p) = all -> valid_identity (this p)) ->
  let t := clock_now P (clock_reads p) in
  let line := line_of (this p) lvl (start_message P name t) in
  (sufficient_rank (this p) = true /\ sufficient_level (this p) lvl = true ->
   timer_start P lvl name p =
     (on_ranks_trace (this p) line,
      Returned tt
        (mkProcess
           (update_timers (this p)
              (timers (this p) ++ [Timer.make t lvl name]))
           (S (clock_reads p)))) /\
   prints (trace_of (timer_start P lvl name p)) = line /\
   count_lines (trace_of (timer_start P lvl name p)) = 1%nat) /\
  (sufficient_rank (this p) = false \/ sufficient_level (this p) lvl = false ->
   timer_start P lvl name p = ([], Returned tt p)).
Proof.
  intros Hvalid t line. rewrite timer_start_run. split.
  - intros [Hrank Hlevel]. rewrite Hrank, Hlevel. cbn [andb trace_of fst].
    split; [reflexivity|]. split.
    + apply prints_on_ranks; [apply line_of_prints|exact Hrank|exact Hvalid].
    + rewrite count_lines_on_ranks;
        [apply count_lines_line_of|apply line_of_prints|exact Hrank
        |exact Hvalid].
  - intros [H|H]; rewrite H; [|rewrite andb_false_r]; reflexivity.
Qed.

Lemma timer_start_acts_iff_filters_pass_witness :
  let p := example_process 1 2 info all in
  valid_identity (this p) /\
  timers (this (final_process (timer_start example_platform notice "solve" p)))
  = [Timer.make 100 notice "solve"] /\
  timer_start example_platform debug "solve" p = ([], Returned tt p).
Proof.
  intros p.
  assert (Hvalid : valid_identity (this p)) by (unfold valid_identity; cbn; lia).
  split; [exact Hvalid|]. split.
  - destruct (timer_start_acts_iff_filters_pass example_platform notice
                "solve" p (fun _ => Hvalid)) as [Hpass _].
    destruct (Hpass (conj eq_refl eq_refl)) as [Hrun _].
    rewrite Hrun. reflexivity.
  - destruct (timer_start_acts_iff_filters_pass example_platform debug
                "solve" p (fun _ => Hvalid)) as [_ Hfail].
    apply Hfail. right. reflexivity.
Defined.

(** ** What no call changes *)

Lemma final_process_bind {A B} (m : M A) (f : A -> M B) p :
  final_process (bind m f p) =
  match outcome_of (m p) with
  | Returned a p' => final_process (f a p')
  | Terminated p' _ => p'
  | Undefined p' => p'
  end.
Proof.
  unfold final_process, outcome_of, bind.
  destruct (m p) as [tr [a p'|p' status|p']]; cbn [snd]; try reflexivity.
  destruct (f a p') as [tr' o]. reflexivity.
Qed.

Lemma invoke_fixed P c p :
  identity_and_config (this (final_process (invoke P c p)))
  = identity_and_config (this p).
Proof.
  destruct (invoke_final P c p) as (ts & k & ->). reflexivity.
Qed.

Lemma invoke_all_fixed P cs : forall p,
  identity_and_config (this (final_process (invoke_all P cs p)))
  = identity_and_config (this p).
Proof.
  induction cs as [|c cs IH]; intros p; [reflexivity|].
  cbn [invoke_all]. rewrite final_process_bind.
  pose proof (invoke_fixed P c p) as Hc. unfold final_process in Hc.
  destruct (outcome_of (invoke P c p)) as [[] p'|p' status|p'].
  - rewrite IH. exact Hc.
  - exact Hc.
  - exact Hc.
Qed.

(** C9. The communicator, the rank and the size of the group, the maximum
    level and the rank selector are what the constructor made them, and
    no call changes them: not [log], [timer_start] or [timer_stop], nor
    [abort] up to the point where the process ends, nor any sequence of
    such calls. *)
Theorem identity_and_config_fixed (P : Platform) (W : MPI_World)
    (lvl : Level) (rs : Ranks) :
  identity_and_config (this (snd (MPIManager_ctor W lvl rs)))
  = (MPI_COMM_WORLD W, world_rank W (MPI_COMM_WORLD W),
     world_size W (MPI_COMM_WORLD W), lvl, rs) /\
  (forall c p,
     identity_and_config (this (final_process (invoke P c p)))
     = identity_and_config (this p)) /\
  (forall cs p,
     identity_and_config (this (final_process (invoke_all P cs p)))
     = identity_and_config (this p)) /\
  (forall cs,
     identity_and_config
       (this (final_process (invoke_all P cs (snd (MPIManager_ctor W lvl rs)))))
     = (MPI_COMM_WORLD W, world_rank W (MPI_COMM_WORLD W),
        world_size W (MPI_COMM_WORLD W), lvl, rs)).
Proof.
  split; [reflexivity|].
  split; [intros c p; apply invoke_fixed|].
  split; [intros cs p; apply invoke_all_fixed|].
  intros cs. rewrite invoke_all_fixed. reflexivity.
Qed.

(** ** Stack discipline *)

(** C6. The timer stack is last in, first out: whenever the stack holds
    admitted timers, [timer_stop] removes exactly the one started last and
    its line is the stop line of that timer.  In particular, starting [a],
    then [b], then stopping once, with the filters passing and no timer
    open before, stops [b] and leaves [a] as the only open timer. *)
Theorem timer_stack_is_lifo (P : Platform) (p : Process) :
  timers_admitted (this p) ->
  (forall ts t,
     timers (this p) = ts ++ [t] ->
     timers (this (final_process (timer_stop P p))) = ts /\
     trace_of (timer_stop P p) =
       on_ranks_trace (this p)
         (line_of (this p) (Timer.level t)
            (stop_message P t (clock_now P (clock_reads p))))) /\
  (forall la lb a b,
     timers (this p) = [] ->
     sufficient_rank (this p) = true ->
     sufficient_level (this p) la = true ->
     sufficient_level (this p) lb = true ->
     let k := clock_reads p in
     let timer_a := Timer.make (clock_now P k) la a in
     let timer_b := Timer.make (clock_now P (S k)) lb b in
     (timer_start P la a ;; timer_start P lb b ;; timer_stop P) p =
     (log_trace (this p) la (start_message P a (clock_now P k))
      ++ log_trace (this p) lb (start_message P b (clock_now P (S k)))
      ++ log_trace (this p) lb
           (stop_message P timer_b (clock_now P (S (S k)))),
      Returned tt
        (mkProcess (update_timers (this p) [timer_a]) (S (S (S k)))))).
Proof.
  intros Hadm. split.
  - intros ts t Hts.
    rewrite (timer_stop_admitted P p ts t Hadm Hts). split; reflexivity.
  - intros la lb a b Hempty Hrank Ha Hb k timer_a timer_b.
    unfold bind at 1. rewrite timer_start_run, Hrank, Ha. cbn [andb].
    unfold bind. rewrite timer_start_run. cbn [this clock_reads].
    change (sufficient_rank (update_timers (this p) _))
      with (sufficient_rank (this p)).
    change (sufficient_level (update_timers (this p) _) lb)
      with (sufficient_level (this p) lb).
    rewrite Hrank, Hb. cbn [andb]. rewrite Hempty. cbn [app timers update_timers].
    rewrite (timer_stop_run P _ [timer_a] timer_b);
      [|reflexivity|exact Hrank].
    cbn [this clock_reads]. rewrite !log_trace_update_timers.
    rewrite !line_of_update_timers.
    unfold log_trace. cbn [Timer.level timer_b].
    rewrite Hrank, Ha, Hb. cbn [andb]. reflexivity.
Qed.

Lemma timer_stack_is_lifo_witness :
  let p := example_process 0 1 debug all in
  timers_admitted (this p) /\
  timers (this (final_process
    ((timer_start example_platform info "A" ;;
      timer_start example_platform info "B" ;;
      timer_stop example_platform) p)))
  = [Timer.make 100 info "A"].
Proof.
  intros p.
  assert (Hadm : timers_admitted (this p)) by (intros t []).
  split; [exact Hadm|].
  destruct (timer_stack_is_lifo example_platform p Hadm) as [_ Hscenario].
  rewrite (Hscenario info info "A" "B" eq_refl eq_refl eq_refl eq_refl).
  reflexivity.
Defined.

(** ** The invariant of the timer stack *)

(** C10. In every state a process reaches by calls on a constructed
    manager, every timer on the stack passes both filters; so the line
    that [timer_stop] logs at the level of the timer on top is not
    suppressed by the filters inside [log]: the trace of [timer_stop] is
    that of the rank protocol writing the stop line, and the line is
    written when the rank is one of the group. *)
Theorem stacked_timers_pass_filters (P : Platform) (W : MPI_World)
    (p : Process) :
  reachable P W p ->
  timers_admitted (this p) /\
  (forall ts t,
     timers (this p) = ts ++ [t] ->
     let line := line_of (this p) (Timer.level t)
                   (stop_message P t (clock_now P (clock_reads p))) in
     sufficient_rank (this p) = true /\
     sufficient_level (this p) (Timer.level t) = true /\
     trace_of (timer_stop P p) = on_ranks_trace (this p) line /\
     ((ranks (this p) = all -> valid_identity (this p)) ->
      prints (trace_of (timer_stop P p)) = line)).
Proof.
  intros Hreach. pose proof (reachable_admitted P W p Hreach) as Hadm.
  split; [exact Hadm|]. intros ts t Hts line.
  destruct (admitted_top (this p) ts t Hadm Hts) as [Hrank Hlevel].
  split; [exact Hrank|]. split; [exact Hlevel|].
  rewrite (timer_stop_admitted P p ts t Hadm Hts). cbn [trace_of fst].
  split; [reflexivity|]. intros Hvalid.
  apply prints_on_ranks; [apply line_of_prints|exact Hrank|exact Hvalid].
Qed.

Lemma stacked_timers_pass_filters_witness :
  let p0 := example_process 0 1 notice zero in
  let p := final_process (timer_start example_platform err "X" p0) in
  reachable example_platform (example_world 0 1) p /\
  timers (this p) = [Timer.make 100 err "X"] /\
  timers_admitted (this p).
Proof.
  intros p0 p.
  assert (Hreach : reachable example_platform (example_world 0 1) p).
  { apply (reachable_call example_platform (example_world 0 1) p0
             (call_timer_start err "X")
             (trace_of (timer_start example_platform err "X" p0)) p).
    - apply reachable_ctor.
    - reflexivity. }
  split; [exact Hreach|]. split; [reflexivity|].
  exact (proj1 (stacked_timers_pass_filters example_platform
                  (example_world 0 1) p Hreach)).
Defined.

(** ** Destruction *)

(** C2, as the code has it.  Destroying a manager whose stack holds
    admitted timers first calls [log] at warning level, which writes the
    warning line only if warning passes the severity filter, and then
    stops the timer started last, writing its stop line.  With exactly
    one timer open that is the whole drain: the stack is then empty, and
    only after it does the destructor leave the runtime, [MPI_Finalize]
    being the last event and the only one that is neither text nor a
    barrier.  With maximum level [debug], selector [all] and exactly one
    open timer this makes exactly two lines, the warning and the stop
    line of that timer. *)
Theorem destructor_drains_then_finalizes (P : Platform) (p : Process) :
  timers (this p) <> [] ->
  timers_admitted (this p) ->
  (ranks (this p) = all -> valid_identity (this p)) ->
  let warned :=
    if sufficient_level (this p) warning
    then line_of (this p) warning destruction_warning else [] in
  (forall ts t,
     timers (this p) = ts ++ [t] ->
     exists head rest,
       trace_of (MPIManager_dtor P p) = head ++ rest /\
       Forall (fun e => is_log_event e = true) head /\
       prints head =
         warned
         ++ line_of (this p) (Timer.level t)
              (stop_message P t (clock_now P (clock_reads p)))) /\
  (forall t,
     timers (this p) = [t] ->
     exists body,
       MPIManager_dtor P p =
         (body ++ [Finalize],
          Returned tt
            (mkProcess (update_timers (this p) []) (S (clock_reads p)))) /\
       Forall (fun e => is_log_event e = true) body /\
       prints body =
         warned
         ++ line_of (this p) (Timer.level t)
              (stop_message P t (clock_now P (clock_reads p))) /\
       count_lines body =
         ((if sufficient_level (this p) warning then 1 else 0) + 1)%nat /\
       (level (this p) = debug -> ranks (this p) = all ->
        count_lines (trace_of (MPIManager_dtor P p)) = 2%nat /\
        prints body =
          line_of (this p) warning destruction_warning
          ++ line_of (this p) (Timer.level t)
               (stop_message P t (clock_now P (clock_reads p))))).
Proof.
  intros Hne Hadm Hvalid warned.
  assert (Hrank : sufficient_rank (this p) = true).
  { destruct (timers (this p)) as [|t ts] eqn:Hts; [congruence|].
    apply (Hadm t). rewrite Hts. left. reflexivity. }
  assert (Hhead : forall ts t, timers (this p) = ts ++ [t] ->
    prints (log_trace (this p) warning destruction_warning
            ++ log_trace (this p) (Timer.level t)
                 (stop_message P t (clock_now P (clock_reads p))))
    = warned
      ++ line_of (this p) (Timer.level t)
           (stop_message P t (clock_now P (clock_reads p)))).
  { intros ts t Hts.
    destruct (admitted_top (this p) ts t Hadm Hts) as [_ Hlevel].
    rewrite prints_app. unfold log_trace. rewrite Hrank, Hlevel.
    cbn [andb]. unfold warned.
    rewrite (prints_on_ranks (this p)
               (line_of (this p) (Timer.level t) _))
      by (try assumption; apply line_of_prints).
    f_equal. destruct (sufficient_level (this p) warning); [|reflexivity].
    apply prints_on_ranks; [apply line_of_prints|exact Hrank|exact Hvalid]. }
  split.
  - intros ts t Hts.
    destruct (dtor_run_first P p ts t Hts Hrank) as [rest Hrun].
    exists (log_trace (this p) warning destruction_warning
            ++ log_trace (this p) (Timer.level t)
                 (stop_message P t (clock_now P (clock_reads p)))), rest.
    split; [rewrite Hrun, <- app_assoc; reflexivity|].
    split; [apply Forall_app; split; apply log_trace_events|].
    exact (Hhead ts t Hts).
  - intros t Hts.
    pose proof (Hhead [] t Hts) as Hprints.
    assert (Hcount :
      count_lines (log_trace (this p) warning destruction_warning
                   ++ log_trace (this p) (Timer.level t)
                        (stop_message P t (clock_now P (clock_reads p))))
      = ((if sufficient_level (this p) warning then 1 else 0) + 1)%nat).
    { rewrite <- count_lines_prints, Hprints, count_lines_app.
      rewrite count_lines_line_of. unfold warned.
      destruct (sufficient_level (this p) warning);
        [rewrite count_lines_line_of|]; reflexivity. }
    exists (log_trace (this p) warning destruction_warning
            ++ log_trace (this p) (Timer.level t)
                 (stop_message P t (clock_now P (clock_reads p)))).
    split; [rewrite (dtor_run_single P p t Hts Hrank), <- app_assoc;
            reflexivity|].
    split; [apply Forall_app; split; apply log_trace_events|].
    split; [exact Hprints|]. split; [exact Hcount|].
    intros Hdebug Hall.
    assert (Hwarning : sufficient_level (this p) warning = true).
    { unfold sufficient_level. rewrite Hdebug. reflexivity. }
    split.
    + rewrite (dtor_run_single P p t Hts Hrank). cbn [trace_of fst].
      rewrite app_assoc, count_lines_app, Hcount, Hwarning. reflexivity.
    + rewrite Hprints. unfold warned. rewrite Hwarning. reflexivity.
Qed.

Lemma destructor_drains_then_finalizes_witness :
  let p0 := example_process 1 3 debug all in
  let p := final_process (timer_start example_platform info "X" p0) in
  timers (this p) = [Timer.make 100 info "X"] /\
  timers_admitted (this p) /\
  valid_identity (this p) /\
  count_lines (trace_of (MPIManager_dtor example_platform p)) = 2%nat.
Proof.
  intros p0 p.
  assert (Hts : timers (this p) = [Timer.make 100 info "X"]) by reflexivity.
  assert (Hne : timers (this p) <> []) by (rewrite Hts; discriminate).
  assert (Hadm : timers_admitted (this p)).
  { intros t Hin. rewrite Hts in Hin. destruct Hin as [<-|[]].
    split; reflexivity. }
  assert (Hvalid : valid_identity (this p))
    by (vm_compute; split; [discriminate|reflexivity]).
  split; [exact Hts|]. split; [exact Hadm|]. split; [exact Hvalid|].
  destruct (proj2 (destructor_drains_then_finalizes example_platform p Hne
                     Hadm (fun _ => Hvalid)) _ Hts)
    as (body & _ & _ & _ & _ & Hscenario).
  exact (proj1 (Hscenario eq_refl eq_refl)).
Defined.

(** C2, as stated, fails: with maximum level [err] the open timer was
    admitted at level [err], yet the warning of the destructor does not
    pass the severity filter.  The destructor writes the stop line only. *)
Lemma destructor_warning_counterexample :
  let p0 := example_process 0 1 err all in
  let p := final_process (timer_start example_platform err "X" p0) in
  reachable example_platform (example_world 0 1) p /\
  timers (this p) = [Timer.make 100 err "X"] /\
  prints (trace_of (MPIManager_dtor example_platform p)) =
    line_of (this p) err
      (stop_message example_platform (Timer.make 100 err "X") 105) /\
  count_lines (trace_of (MPIManager_dtor example_platform p)) = 1%nat /\
  ~ (exists rest,
       prints (trace_of (MPIManager_dtor example_platform p)) =
       line_of (this p) warning destruction_warning ++ rest).
Proof.
  intros p0 p. split.
  { apply (reachable_call example_platform (example_world 0 1) p0
             (call_timer_start err "X")
             (trace_of (timer_start example_platform err "X" p0)) p).
    - apply reachable_ctor.
    - reflexivity. }
  split; [reflexivity|]. split; [reflexivity|]. split; [reflexivity|].
  intros [rest H]. vm_compute in H. discriminate H.
Qed.

(** ** The ordering protocol *)

Lemma log_all_ranks lvl msg p :
  ranks (this p) = all ->
  sufficient_level (this p) lvl = true ->
  trace_of (log lvl msg p) = turns lvl msg 0 p.
Proof.
  intros Hall Hlevel. rewrite log_run. cbn [trace_of fst].
  unfold log_trace, sufficient_rank, on_ranks_trace.
  rewrite Hall, Hlevel. reflexivity.
Qed.

(** C4. In a group whose processes all log on every rank and pass the
    severity filter, [log] follows the round-robin protocol: for each
    index from 0 up to the size of the group, in increasing order, a
    process writes its line if the index is its rank and then, whether it
    wrote or not, enters a barrier.  Consequently, under every schedule
    of the group that respects the barriers, the output is in
    non-decreasing order of rank; and the schedule in which the ranks
    take their turns one after the other runs to completion and shows
    the line of every rank, in rank order. *)
Theorem barrier_round_robin_orders_output (procs : list Process)
    (lvl : Level) (msg : string) :
  is_group procs ->
  (forall p, In p procs -> sufficient_level (this p) lvl = true) ->
  let cfg := map (fun p => trace_of (log lvl msg p)) procs in
  (forall p, In p procs ->
     trace_of (log lvl msg p) =
     flat_map (fun i => (if rank (this p) =? i
                         then line_of (this p) lvl msg else [])
                        ++ [Barrier (comm (this p))])
              (iota 0 (size (this p)))) /\
  (forall sched out cfg',
     run sched cfg = Some (out, cfg') -> nondecreasing (map fst out)) /\
  run (round_robin 3 (List.length procs)) cfg =
    Some (lines_in_rank_order lvl msg 0 procs, map (fun _ => []) procs).
Proof.
  intros Hgroup Hlevel cfg.
  assert (Hturns : forall p, In p procs ->
            trace_of (log lvl msg p) = turns lvl msg 0 p).
  { intros p Hin. apply log_all_ranks; [|exact (Hlevel p Hin)].
    apply In_nth_error in Hin. destruct Hin as [i Hp].
    exact (proj2 (proj2 (Hgroup i p Hp))). }
  split; [exact Hturns|]. split.
  - intros sched out cfg' Hrun.
    exact (proj2 (run_turns sched 0 cfg out cfg'
                    (group_log_turns procs lvl msg Hgroup Hlevel) Hrun)).
  - unfold cfg. rewrite (map_ext_in _ (turns lvl msg 0) procs Hturns).
    unfold round_robin.
    exact (run_rounds procs lvl msg Hgroup (List.length procs) 0 eq_refl).
Qed.

Lemma barrier_round_robin_orders_output_witness :
  let procs := [example_process 0 3 info all;
                example_process 1 3 info all;
                example_process 2 3 info all] in
  let cfg := map (fun p => trace_of (log notice "step" p)) procs in
  let sched := [Run 0; Run 0; Run 0; Sync; Run 1; Run 1; Run 1] in
  is_group procs /\
  (exists out cfg', run sched cfg = Some (out, cfg') /\
                    map fst out = [0; 0; 0; 1; 1; 1]%nat /\
                    nondecreasing (map fst out)) /\
  run [Run 1] cfg = None.
Proof.
  intros procs cfg sched.
  assert (Hgroup : is_group procs).
  { intros i p Hp.
    destruct i as [|[|[|i]]]; cbn in Hp;
      try (injection Hp as <-; repeat split; reflexivity).
    destruct i; discriminate. }
  assert (Hlevel : forall p, In p procs ->
            sufficient_level (this p) notice = true).
  { intros p [<-|[<-|[<-|[]]]]; reflexivity. }
  split; [exact Hgroup|]. split; [|reflexivity].
  destruct (run sched cfg) as [[out cfg']|] eqn:Hrun.
  - exists out, cfg'. split; [reflexivity|].
    split.
    + vm_compute in Hrun. injection Hrun as <- _. reflexivity.
    + exact (proj1 (proj2 (barrier_round_robin_orders_output procs notice
                             "step" Hgroup Hlevel)) sched out cfg' Hrun).
  - vm_compute in Hrun. discriminate.
Defined.

(** * Further properties of the code *)

(** ** Processes that are not the leader *)

Lemma invoke_all_app P cs1 : forall cs2 p,
  invoke_all P (cs1 ++ cs2) p =
  match invoke_all P cs1 p with
  | (tr, Returned _ p') =>
      (tr ++ trace_of (invoke_all P cs2 p'), outcome_of (invoke_all P cs2 p'))
  | (tr, Terminated p' status) => (tr, Terminated p' status)
  | (tr, Undefined p') => (tr, Undefined p')
  end.
Proof.
  induction cs1 as [|c cs1 IH]; intros cs2 p.
  - cbn. destruct (invoke_all P cs2 p); reflexivity.
  - cbn [app invoke_all]. unfold bind.
    destruct (invoke P c p) as [tr [[] p1|p1 status|p1]]; try reflexivity.
    rewrite IH.
    destruct (invoke_all P cs1 p1) as [tr1 [[] p2|p2 status|p2]];
      try reflexivity.
    unfold trace_of, outcome_of.
    destruct (invoke_all P cs2 p2) as [tr2 o2]. cbn [fst snd].
    rewrite app_assoc. reflexivity.
Qed.

Lemma invoke_filtered P c p :
  sufficient_rank (this p) = false ->
  is_abort c = false ->
  invoke P c p = ([], Returned tt p).
Proof.
  intros Hrank Hc. destruct c as [lvl msg|lvl name| |msg]; cbn [invoke].
  - rewrite log_run. unfold log_trace. rewrite Hrank. reflexivity.
  - rewrite timer_start_run, Hrank. reflexivity.
  - apply timer_stop_filtered. exact Hrank.
  - discriminate.
Qed.

Lemma invoke_all_filtered P cs : forall p,
  sufficient_rank (this p) = false ->
  abort_free cs = true ->
  invoke_all P cs p = ([], Returned tt p).
Proof.
  induction cs as [|c cs IH]; intros p Hrank Hfree; [reflexivity|].
  cbn [abort_free forallb] in Hfree. apply andb_prop in Hfree.
  destruct Hfree as [Hc Hfree]. apply negb_true_iff in Hc.
  cbn [invoke_all]. unfold bind.
  rewrite (invoke_filtered P c p Hrank Hc).
  rewrite (IH p Hrank Hfree). reflexivity.
Qed.

(** X1. Under the selector [zero], a process whose rank is not 0 is
    silent: whatever sequence of [log], [timer_start] and [timer_stop]
    calls it makes writes nothing, enters no barrier, reads no clock and
    leaves the process as it was; its destructor only leaves the
    runtime. *)
Theorem non_leader_is_silent (P : Platform) (cs : list call) (p : Process) :
  ranks (this p) = zero ->
  rank (this p) <> 0 ->
  abort_free cs = true ->
  invoke_all P cs p = ([], Returned tt p) /\
  MPIManager_dtor P p = ([Finalize], Returned tt p).
Proof.
  intros Hzero Hrank Hfree.
  assert (Hfilter : sufficient_rank (this p) = false).
  { unfold sufficient_rank. rewrite Hzero. cbn [Ranks_eqb].
    apply Z.eqb_neq. intros H. apply Hrank. symmetry. exact H. }
  split; [exact (invoke_all_filtered P cs p Hfilter Hfree)|].
  exact (dtor_run_filtered P p Hfilter).
Qed.

Lemma non_leader_is_silent_witness :
  let p := example_process 2 4 debug zero in
  let cs := [call_timer_start info "solve"; call_log emerg "diverged";
             call_timer_stop; call_timer_stop] in
  ranks (this p) = zero /\
  rank (this p) <> 0 /\
  invoke_all example_platform cs p = ([], Returned tt p).
Proof.
  intros p cs.
  assert (Hzero : ranks (this p) = zero) by reflexivity.
  assert (Hrank : rank (this p) <> 0) by discriminate.
  split; [exact Hzero|]. split; [exact Hrank|].
  exact (proj1 (non_leader_is_silent example_platform cs p Hzero Hrank
                  eq_refl)).
Defined.

(** ** Barriers *)

Lemma count_barriers_app tr tr' :
  count_barriers (tr ++ tr') = (count_barriers tr + count_barriers tr')%nat.
Proof. unfold count_barriers. rewrite filter_app, length_app. reflexivity. Qed.

Lemma count_barriers_line line :
  prints line = line -> count_barriers line = 0%nat.
Proof.
  unfold prints, count_barriers. induction line as [|e line IH]; intros H.
  - reflexivity.
  - cbn [filter] in H. destruct (is_print e) eqn:E.
    + injection H as H. cbn [filter].
      replace (is_barrier e) with false by (destruct e; try discriminate; reflexivity).
      exact (IH H).
    + pose proof (filter_length_le is_print line) as Hle.
      rewrite H in Hle. cbn in Hle. lia.
Qed.

Lemma count_barriers_round_robin r c line (l : list Z) :
  prints line = line ->
  count_barriers
    (flat_map (fun i => (if r =? i then line else []) ++ [Barrier c]) l)
  = List.length l.
Proof.
  intros Hline. induction l as [|i l IH]; [reflexivity|].
  cbn [flat_map List.length]. rewrite !count_barriers_app, IH.
  destruct (r =? i); [rewrite (count_barriers_line line Hline)|]; reflexivity.
Qed.

Lemma count_barriers_on_ranks m line :
  prints line = line ->
  count_barriers (on_ranks_trace m line) =
  match ranks m with
  | zero => 0%nat
  | all => Z.to_nat (size m)
  end.
Proof.
  intros Hline. unfold on_ranks_trace. destruct (ranks m).
  - destruct (0 =? rank m); [apply count_barriers_line; exact Hline|reflexivity].
  - rewrite count_barriers_round_robin by exact Hline.
    unfold iota. rewrite length_map, length_seq. f_equal. lia.
Qed.

(** X2. What [log] costs in barriers, for a size that is not negative.
    Under the selector [all] a call that passes the severity filter
    enters exactly [size] barriers, whatever the rank of the process; a
    call that does not pass enters none.  Under the selector [zero] no
    call ever enters a barrier. *)
Theorem log_barrier_count (lvl : Level) (msg : string) (p : Process) :
  0 <= size (this p) ->
  count_barriers (trace_of (log lvl msg p)) =
  match ranks (this p) with
  | zero => 0%nat
  | all =>
      if sufficient_level (this p) lvl then Z.to_nat (size (this p)) else 0%nat
  end.
Proof.
  intros _. rewrite log_run. cbn [trace_of fst]. unfold log_trace.
  destruct (sufficient_rank (this p) && sufficient_level (this p) lvl)%bool
    eqn:Hok.
  - rewrite count_barriers_on_ranks by apply line_of_prints.
    apply andb_prop in Hok. rewrite (proj2 Hok). reflexivity.
  - destruct (ranks (this p)) eqn:Hranks; [reflexivity|].
    unfold sufficient_rank in Hok. rewrite Hranks in Hok.
    cbn [Ranks_eqb andb] in Hok. rewrite Hok. reflexivity.
Qed.

Lemma log_barrier_count_witness :
  let p := example_process 3 5 notice all in
  0 <= size (this p) /\
  count_barriers (trace_of (log err "x" p)) = 5%nat /\
  count_barriers (trace_of (log debug "x" p)) = 0%nat.
Proof.
  intros p.
  assert (Hsize : 0 <= size (this p)) by discriminate.
  split; [exact Hsize|]. split.
  - exact (log_barrier_count err "x" p Hsize).
  - exact (log_barrier_count debug "x" p Hsize).
Defined.

(** ** Pairs of [timer_start] and [timer_stop] *)

Lemma update_timers_back m ts :
  update_timers (update_timers m ts) (timers m) = m.
Proof. destruct m; reflexivity. Qed.

Lemma timer_start_stop_run P lvl name p :
  sufficient_rank (this p) = true ->
  sufficient_level (this p) lvl = true ->
  (timer_start P lvl name ;; timer_stop P) p =
  (on_ranks_trace (this p)
     (line_of (this p) lvl
        (start_message P name (clock_now P (clock_reads p))))
   ++ on_ranks_trace (this p)
        (line_of (this p) lvl
           (stop_message P
              (Timer.make (clock_now P (clock_reads p)) lvl name)
              (clock_now P (S (clock_reads p))))),
   Returned tt (mkProcess (this p) (S (S (clock_reads p))))).
Proof.
  intros Hrank Hlevel. unfold bind.
  rewrite timer_start_run, Hrank, Hlevel. cbn [andb].
  rewrite (timer_stop_run P _ (timers (this p))
             (Timer.make (clock_now P (clock_reads p)) lvl name));
    [|reflexivity|exact Hrank].
  cbn [this clock_reads]. rewrite log_trace_update_timers, update_timers_back.
  unfold log_trace. cbn [Timer.level]. rewrite Hrank, Hlevel. reflexivity.
Qed.

(** X3. A [timer_start] that passes the filters, followed at once by
    [timer_stop], writes exactly two lines, the start line and the stop
    line of the same timer; the duration reported is the difference of
    the two clock readings; the manager, its stack included, is as
    before, and the clock has been read twice. *)
Theorem timer_start_stop_pair (P : Platform) (lvl : Level) (name : string)
    (p : Process) :
  sufficient_rank (this p) = true ->
  sufficient_level (this p) lvl = true ->
  (ranks (this p) = all -> valid_identity (this p)) ->
  let t0 := clock_now P (clock_reads p) in
  let t1 := clock_now P (S (clock_reads p)) in
  let stop := ("Timer: `" ++ name ++ "` stopped at: "
               ++ format_time_point P "%Y-%m-%d %H:%M:%S" t1
               ++ " with duration: "
               ++ format_duration P "%H:%M:%S" (t1 - t0))%string in
  let r := (timer_start P lvl name ;; timer_stop P) p in
  outcome_of r = Returned tt (mkProcess (this p) (S (S (clock_reads p)))) /\
  prints (trace_of r) =
    line_of (this p) lvl (start_message P name t0)
    ++ line_of (this p) lvl stop /\
  count_lines (trace_of r) = 2%nat.
Proof.
  intros Hrank Hlevel Hvalid t0 t1 stop r. unfold r.
  rewrite (timer_start_stop_run P lvl name p Hrank Hlevel).
  cbn [outcome_of trace_of fst snd]. split; [reflexivity|].
  assert (Hprints :
    prints
      (on_ranks_trace (this p) (line_of (this p) lvl (start_message P name t0))
       ++ on_ranks_trace (this p)
            (line_of (this p) lvl
               (stop_message P (Timer.make t0 lvl name) t1)))
    = line_of (this p) lvl (start_message P name t0)
      ++ line_of (this p) lvl stop).
  { rewrite prints_app.
    rewrite !prints_on_ranks by (try assumption; apply line_of_prints).
    reflexivity. }
  split; [exact Hprints|].
  rewrite <- count_lines_prints. fold t0 t1. rewrite Hprints.
  rewrite count_lines_app, !count_lines_line_of. reflexivity.
Qed.

Lemma timer_start_stop_pair_witness :
  let p := example_process 0 2 info all in
  sufficient_rank (this p) = true /\
  sufficient_level (this p) notice = true /\
  valid_identity (this p) /\
  count_lines
    (trace_of ((timer_start example_platform notice "io" ;;
                timer_stop example_platform) p)) = 2%nat.
Proof.
  intros p.
  assert (Hvalid : valid_identity (this p))
    by (vm_compute; split; [discriminate|reflexivity]).
  split; [reflexivity|]. split; [reflexivity|]. split; [exact Hvalid|].
  exact (proj2 (proj2 (timer_start_stop_pair example_platform notice "io" p
                         eq_refl eq_refl (fun _ => Hvalid)))).
Defined.

(** X4. A [timer_start] that the severity filter suppresses pushes
    nothing, so the [timer_stop] meant for it stops the timer that
    encloses it: the pair writes the stop line of the timer on top of the
    stack and pops that timer. *)
Theorem suppressed_start_stops_enclosing_timer (P : Platform) (lvl : Level)
    (name : string) (p : Process) (ts : list Timer.t) (t : Timer.t) :
  sufficient_rank (this p) = true ->
  sufficient_level (this p) lvl = false ->
  timers (this p) = ts ++ [t] ->
  (timer_start P lvl name ;; timer_stop P) p =
  (log_trace (this p) (Timer.level t)
     (stop_message P t (clock_now P (clock_reads p))),
   Returned tt (mkProcess (update_timers (this p) ts) (S (clock_reads p)))).
Proof.
  intros Hrank Hlevel Hts. unfold bind.
  rewrite timer_start_run, Hrank, Hlevel. cbn [andb].
  rewrite (timer_stop_run P p ts t Hts Hrank). reflexivity.
Qed.

Lemma suppressed_start_stops_enclosing_timer_witness :
  let p0 := example_process 0 1 info all in
  let p := final_process (timer_start example_platform info "outer" p0) in
  sufficient_rank (this p) = true /\
  sufficient_level (this p) debug = false /\
  timers (this p) = [] ++ [Timer.make 100 info "outer"] /\
  timers (this (final_process
    ((timer_start example_platform debug "inner" ;;
      timer_stop example_platform) p))) = [].
Proof.
  intros p0 p.
  split; [reflexivity|]. split; [reflexivity|]. split; [reflexivity|].
  rewrite (suppressed_start_stops_enclosing_timer example_platform debug
             "inner" p [] (Timer.make 100 info "outer")
             eq_refl eq_refl eq_refl).
  reflexivity.
Defined.

(** ** Balanced programs *)

Lemma starts_pass_cons m c cs :
  starts_pass m (c :: cs) -> starts_pass m cs.
Proof. intros H lvl name Hin. apply (H lvl name). right. exact Hin. Qed.

Lemma starts_pass_app m cs1 cs2 :
  starts_pass m (cs1 ++ cs2) -> starts_pass m cs1 /\ starts_pass m cs2.
Proof.
  intros H. split; intros lvl name Hin; apply (H lvl name);
    apply in_or_app; [left|right]; exact Hin.
Qed.

Lemma balanced_run P cs :
  balanced cs ->
  forall p, starts_pass (this p) cs ->
    exists tr k,
      invoke_all P cs p = (tr, Returned tt (mkProcess (this p) k)) /\
      Forall (fun e => is_log_event e = true) tr.
Proof.
  induction 1 as [|lvl msg cs _ IH|lvl name inner rest _ IHinner _ IHrest];
    intros p Hpass.
  - exists [], (clock_reads p). destruct p. split; [reflexivity|constructor].
  - destruct (IH p (starts_pass_cons _ _ _ Hpass)) as (tr & k & Hrun & Hev).
    exists (log_trace (this p) lvl msg ++ tr), k.
    cbn [invoke_all invoke]. unfold bind. rewrite log_run, Hrun.
    split; [reflexivity|].
    apply Forall_app. split; [apply log_trace_events|exact Hev].
  - pose proof (starts_pass_cons _ _ _ Hpass) as Hpass'.
    apply starts_pass_app in Hpass'. destruct Hpass' as [Hinner Hrest].
    apply starts_pass_cons in Hrest.
    cbn [invoke_all invoke]. unfold bind. rewrite timer_start_run.
    destruct (sufficient_rank (this p)) eqn:Hrank.
    + rewrite (Hpass lvl name (or_introl eq_refl)). cbn [andb].
      set (t := Timer.make (clock_now P (clock_reads p)) lvl name).
      set (p1 := mkProcess (update_timers (this p) (timers (this p) ++ [t]))
                   (S (clock_reads p))).
      destruct (IHinner p1 Hinner) as (tr1 & k1 & Hrun1 & Hev1).
      rewrite invoke_all_app, Hrun1. cbn [invoke_all invoke]. unfold bind.
      rewrite (timer_stop_run P (mkProcess (this p1) k1)
                 (timers (this p)) t eq_refl Hrank).
      cbn [this clock_reads p1]. rewrite update_timers_back.
      destruct (IHrest (mkProcess (this p) (S k1)) Hrest)
        as (tr2 & k2 & Hrun2 & Hev2).
      cbn [this] in Hrun2. rewrite Hrun2.
      cbn [trace_of outcome_of fst snd].
      eexists _, k2. split; [reflexivity|].
      apply Forall_app. split; [apply on_ranks_trace_events, line_of_prints|].
      apply Forall_app. split; [exact Hev1|].
      apply Forall_app. split; [apply log_trace_events|exact Hev2].
    + cbn [andb].
      destruct (IHinner p Hinner) as (tr1 & k1 & Hrun1 & Hev1).
      rewrite invoke_all_app, Hrun1. cbn [invoke_all invoke]. unfold bind.
      rewrite (timer_stop_filtered P (mkProcess (this p) k1) Hrank).
      destruct (IHrest (mkProcess (this p) k1) Hrest)
        as (tr2 & k2 & Hrun2 & Hev2).
      cbn [this] in Hrun2. rewrite Hrun2.
      cbn [trace_of outcome_of fst snd app].
      exists (tr1 ++ tr2), k2. split; [reflexivity|].
      apply Forall_app. split; assumption.
Qed.

(** X5. A balanced program, in which every [timer_start] is at a level
    the manager acts on, leaves the manager as it found it: the timer
    stack is restored, whether the rank filter passes or not, and all the
    program did was to write text and enter barriers.  Started with no
    timer open, it is followed by a destructor that only leaves the
    runtime, without a warning. *)
Theorem balanced_calls_restore_stack (P : Platform) (cs : list call)
    (p : Process) :
  balanced cs ->
  starts_pass (this p) cs ->
  exists tr k,
    invoke_all P cs p = (tr, Returned tt (mkProcess (this p) k)) /\
    Forall (fun e => is_log_event e = true) tr /\
    (timers (this p) = [] ->
     (invoke_all P cs ;; MPIManager_dtor P) p =
       (tr ++ [Finalize], Returned tt (mkProcess (this p) k))).
Proof.
  intros Hbal Hpass.
  destruct (balanced_run P cs Hbal p Hpass) as (tr & k & Hrun & Hev).
  exists tr, k. split; [exact Hrun|]. split; [exact Hev|].
  intros Hempty. unfold bind at 1. rewrite Hrun.
  rewrite (dtor_run_empty P (mkProcess (this p) k) Hempty). reflexivity.
Qed.

Lemma balanced_calls_restore_stack_witness :
  let p := example_process 0 1 info all in
  let cs := [call_timer_start notice "outer"; call_log info "begin";
             call_timer_start info "inner"; call_timer_stop;
             call_timer_stop; call_log debug "end"] in
  balanced cs /\
  starts_pass (this p) cs /\
  timers (this (final_process (invoke_all example_platform cs p))) = [].
Proof.
  intros p cs.
  assert (Hbal : balanced cs).
  { apply (balanced_timer notice "outer"
             [call_log info "begin"; call_timer_start info "inner";
              call_timer_stop]
             [call_log debug "end"]).
    - apply balanced_log.
      apply (balanced_timer info "inner" [] []); apply balanced_nil.
    - apply balanced_log, balanced_nil. }
  assert (Hpass : starts_pass (this p) cs).
  { intros lvl name Hin. cbn in Hin.
    destruct Hin as [H|[H|[H|[H|[H|[H|[]]]]]]]; try discriminate;
      injection H as <- _; reflexivity. }
  split; [exact Hbal|]. split; [exact Hpass|].
  destruct (balanced_calls_restore_stack example_platform cs p Hbal Hpass)
    as (tr & k & Hrun & _).
  rewrite Hrun. reflexivity.
Defined.

(** ** Start times *)

Lemma read_before_weaken P k k' ts :
  (k <= k')%nat -> read_before P k ts -> read_before P k' ts.
Proof.
  intros Hle H. unfold read_before in *.
  eapply Forall_impl; [|exact H]. cbn.
  intros t (i & Hi & Ht). exists i. split; [lia|exact Ht].
Qed.

Lemma starts_ordered_snoc ts : forall t,
  starts_ordered ts ->
  Forall (fun t' => Timer.start t' <= Timer.start t) ts ->
  starts_ordered (ts ++ [t]).
Proof.
  induction ts as [|a ts IH]; intros t Hord Hle.
  - cbn. split; constructor.
  - cbn [app starts_ordered] in *. destruct Hord as [Ha Hord].
    inversion Hle as [|? ? Hat Hle']; subst. split.
    + apply Forall_app. split; [exact Ha|]. constructor; [exact Hat|constructor].
    + apply IH; assumption.
Qed.

Lemma starts_ordered_init ts : forall t,
  starts_ordered (ts ++ [t]) -> starts_ordered ts.
Proof.
  induction ts as [|a ts IH]; intros t Hord; [exact I|].
  cbn [app starts_ordered] in *. destruct Hord as [Ha Hord]. split.
  - apply Forall_app in Ha. exact (proj1 Ha).
  - exact (IH t Hord).
Qed.

Lemma invoke_start_times P c p tr p' :
  monotone_clock P ->
  read_before P (clock_reads p) (timers (this p)) ->
  starts_ordered (timers (this p)) ->
  invoke P c p = (tr, Returned tt p') ->
  read_before P (clock_reads p') (timers (this p')) /\
  starts_ordered (timers (this p')).
Proof.
  intros Hmono Hread Hord Hrun.
  destruct c as [lvl msg|lvl name| |msg]; cbn [invoke] in Hrun.
  - rewrite log_run in Hrun. injection Hrun as _ <-. split; assumption.
  - rewrite timer_start_run in Hrun.
    destruct (sufficient_rank (this p) && sufficient_level (this p) lvl)%bool;
      injection Hrun as _ <-; [|split; assumption].
    cbn [this clock_reads timers update_timers]. split.
    + apply Forall_app. split.
      * apply (read_before_weaken P (clock_reads p)); [lia|exact Hread].
      * constructor; [|constructor]. exists (clock_reads p).
        split; [lia|reflexivity].
    + apply starts_ordered_snoc; [exact Hord|].
      eapply Forall_impl; [|exact Hread]. cbn.
      intros t (i & Hi & ->). apply Hmono. lia.
  - destruct (snoc_cases (timers (this p))) as [Hts|(ts & t & Hts)].
    + rewrite timer_stop_empty in Hrun by exact Hts.
      injection Hrun as _ <-. split; assumption.
    + destruct (sufficient_rank (this p)) eqn:Hrank.
      * rewrite (timer_stop_run P p ts t Hts Hrank) in Hrun.
        injection Hrun as _ <-. cbn [this clock_reads timers update_timers].
        rewrite Hts in Hread, Hord. split.
        -- apply (read_before_weaken P (clock_reads p)); [lia|].
           apply Forall_app in Hread. exact (proj1 Hread).
        -- exact (starts_ordered_init ts t Hord).
      * rewrite timer_stop_filtered in Hrun by exact Hrank.
        injection Hrun as _ <-. split; assumption.
  - rewrite abort_run in Hrun. discriminate.
Qed.

Lemma reachable_start_times P W p :
  monotone_clock P ->
  reachable P W p ->
  read_before P (clock_reads p) (timers (this p)) /\
  starts_ordered (timers (this p)).
Proof.
  intros Hmono. induction 1 as [lvl rs|p c tr p' _ IH Hrun].
  - split; [constructor|exact I].
  - destruct IH as [Hread Hord].
    exact (invoke_start_times P c p tr p' Hmono Hread Hord Hrun).
Qed.

(** X6. With a clock that never goes back and whose readings are times
    since the epoch that fit the 64-bit tick count, in every state a
    process reaches by calls on a constructed manager the start times of
    the open timers do not decrease from the bottom of the stack to its
    top, each of them is a reading the process took, and the 64-bit
    subtraction by which [timer_stop] would compute the duration of the
    timer on top does not overflow and gives a duration that is not
    negative. *)
Theorem open_timers_ordered_by_start (P : Platform) (W : MPI_World)
    (p : Process) :
  monotone_clock P ->
  clock_since_epoch P ->
  reachable P W p ->
  starts_ordered (timers (this p)) /\
  read_before P (clock_reads p) (timers (this p)) /\
  (forall ts t, timers (this p) = ts ++ [t] ->
     let d := clock_now P (clock_reads p) - Timer.start t in
     wrap_int64 d = d /\ 0 <= wrap_int64 d).
Proof.
  intros Hmono Hepoch Hreach.
  destruct (reachable_start_times P W p Hmono Hreach) as [Hread Hord].
  split; [exact Hord|]. split; [exact Hread|].
  intros ts t Hts d. rewrite Hts in Hread. apply Forall_app in Hread.
  destruct Hread as [_ Ht]. inversion Ht as [|? ? (i & Hi & Hstart) _]; subst.
  pose proof (Hmono i (clock_reads p)) as Hle.
  pose proof (Hepoch i) as Hi_range.
  pose proof (Hepoch (clock_reads p)) as Hk_range.
  assert (Hd : 0 <= d < 2 ^ 63) by (unfold d; rewrite Hstart; lia).
  assert (Hwrap : wrap_int64 d = d).
  { unfold wrap_int64. rewrite Z.mod_small by lia. lia. }
  split; [exact Hwrap|]. rewrite Hwrap. lia.
Qed.

Lemma open_timers_ordered_by_start_witness :
  let P := example_bounded_platform in
  let p0 := example_process 0 1 debug zero in
  let p := final_process
             (invoke_all P
                [call_timer_start info "a"; call_timer_start debug "b"] p0) in
  monotone_clock P /\
  clock_since_epoch P /\
  reachable P (example_world 0 1) p /\
  timers (this p) = [Timer.make 100 info "a"; Timer.make 105 debug "b"] /\
  starts_ordered (timers (this p)) /\
  0 <= wrap_int64 (clock_now P (clock_reads p) - 105).
Proof.
  intros P p0 p.
  assert (Hmono : monotone_clock P).
  { intros i j Hij. unfold P, example_bounded_platform. cbn [clock_now]. lia. }
  assert (Hepoch : clock_since_epoch P).
  { intros i. unfold P, example_bounded_platform. cbn [clock_now].
    change (2 ^ 63) with 9223372036854775808. lia. }
  assert (Hreach : reachable P (example_world 0 1) p).
  { apply (reachable_call P (example_world 0 1)
             (final_process (timer_start P info "a" p0))
             (call_timer_start debug "b")
             (trace_of (timer_start P debug "b"
                (final_process (timer_start P info "a" p0))))
             p).
    - apply (reachable_call P (example_world 0 1) p0
               (call_timer_start info "a")
               (trace_of (timer_start P info "a" p0))
               (final_process (timer_start P info "a" p0))).
      + apply reachable_ctor.
      + reflexivity.
    - reflexivity. }
  assert (Hts : timers (this p)
                = [Timer.make 100 info "a"] ++ [Timer.make 105 debug "b"])
    by reflexivity.
  split; [exact Hmono|]. split; [exact Hepoch|]. split; [exact Hreach|].
  split; [exact Hts|].
  destruct (open_timers_ordered_by_start P (example_world 0 1) p Hmono Hepoch
              Hreach) as (Hord & _ & Hduration).
  split; [exact Hord|].
  exact (proj2 (Hduration _ _ Hts)).
Defined.

(** ** Programs that abort *)

Lemma invoke_returns P c p :
  is_abort c = false ->
  exists tr p',
    invoke P c p = (tr, Returned tt p') /\
    Forall (fun e => is_log_event e = true) tr.
Proof.
  intros Hc. destruct c as [lvl msg|lvl name| |msg]; cbn [invoke].
  - eexists _, _. rewrite log_run. split; [reflexivity|apply log_trace_events].
  - rewrite timer_start_run.
    destruct (sufficient_rank (this p) && sufficient_level (this p) lvl)%bool;
      eexists _, _; (split; [reflexivity|]).
    + apply on_ranks_trace_events, line_of_prints.
    + constructor.
  - destruct (snoc_cases (timers (this p))) as [Hts|(ts & t & Hts)].
    + rewrite timer_stop_empty by exact Hts.
      eexists _, _. split; [reflexivity|constructor].
    + destruct (sufficient_rank (this p)) eqn:Hrank.
      * rewrite (timer_stop_run P p ts t Hts Hrank).
        eexists _, _. split; [reflexivity|apply log_trace_events].
      * rewrite timer_stop_filtered by exact Hrank.
        eexists _, _. split; [reflexivity|constructor].
  - discriminate.
Qed.

Lemma abort_free_run P cs : forall p,
  abort_free cs = true ->
  exists tr p',
    invoke_all P cs p = (tr, Returned tt p') /\
    Forall (fun e => is_log_event e = true) tr.
Proof.
  induction cs as [|c cs IH]; intros p Hfree.
  - exists [], p. split; [reflexivity|constructor].
  - cbn [abort_free forallb] in Hfree. apply andb_prop in Hfree.
    destruct Hfree as [Hc Hfree]. apply negb_true_iff in Hc.
    destruct (invoke_returns P c p Hc) as (tr1 & p1 & Hrun1 & Hev1).
    destruct (IH p1 Hfree) as (tr2 & p2 & Hrun2 & Hev2).
    exists (tr1 ++ tr2), p2. cbn [invoke_all]. unfold bind.
    rewrite Hrun1, Hrun2. split; [reflexivity|].
    apply Forall_app. split; assumption.
Qed.

Lemma line_of_rank m m' lvl msg :
  rank m = rank m' -> line_of m lvl msg = line_of m' lvl msg.
Proof.
  intros H.
  destruct lvl;
    unfold line_of, trace_of, log_level, log_emerg, log_alert, log_crit,
      log_err, log_warning, log_notice, log_info, log_debug, bind, get,
      print, emit;
    cbn [fst app this]; rewrite H; reflexivity.
Qed.

(** X7. In a program, the calls before the first [abort] all return and
    only write text and enter barriers; [abort] then writes its
    emergency line and aborts the group, and that is the end of the
    trace: none of the calls that follow it is executed. *)
Theorem nothing_runs_after_abort (P : Platform) (cs1 cs2 : list call)
    (msg : string) (p : Process) :
  abort_free cs1 = true ->
  exists tr p',
    invoke_all P cs1 p = (tr, Returned tt p') /\
    Forall (fun e => is_log_event e = true) tr /\
    invoke_all P (cs1 ++ call_abort msg :: cs2) p =
      (tr ++ line_of (this p) emerg msg
          ++ [Abort (comm (this p)) (EXIT_FAILURE P)],
       Terminated p' (EXIT_FAILURE P)).
Proof.
  intros Hfree.
  destruct (abort_free_run P cs1 p Hfree) as (tr & p' & Hrun & Hev).
  exists tr, p'. split; [exact Hrun|]. split; [exact Hev|].
  rewrite invoke_all_app, Hrun. cbn [invoke_all invoke]. unfold bind.
  rewrite abort_run. cbn [trace_of outcome_of fst snd].
  pose proof (invoke_all_fixed P cs1 p) as Hfixed.
  unfold final_process, outcome_of in Hfixed. rewrite Hrun in Hfixed.
  cbn [snd] in Hfixed. unfold identity_and_config in Hfixed.
  injection Hfixed as Hcomm Hrank _ _ _.
  rewrite Hcomm, (line_of_rank (this p') (this p) emerg msg Hrank).
  reflexivity.
Qed.

Lemma nothing_runs_after_abort_witness :
  let p := example_process 1 2 err all in
  let cs1 := [call_log crit "bad input"] in
  let cs2 := [call_log emerg "unreachable"; call_timer_stop] in
  abort_free cs1 = true /\
  trace_of (invoke_all example_platform (cs1 ++ call_abort "stop" :: cs2) p)
  = trace_of (invoke_all example_platform (cs1 ++ [call_abort "stop"]) p).
Proof.
  intros p cs1 cs2.
  assert (Hfree : abort_free cs1 = true) by reflexivity.
  split; [exact Hfree|].
  destruct (nothing_runs_after_abort example_platform cs1 cs2 "stop" p Hfree)
    as (tr & p' & Hpre & _ & Hrun).
  destruct (nothing_runs_after_abort example_platform cs1 [] "stop" p Hfree)
    as (tr0 & p0 & Hpre0 & _ & Hrun0).
  rewrite Hpre in Hpre0. injection Hpre0 as <- <-.
  rewrite Hrun, Hrun0. reflexivity.
Defined.

(** ** Reading a line back *)

Lemma append_cancel_r (c : string) : forall a b : string,
  (a ++ c)%string = (b ++ c)%string -> a = b.
Proof.
  assert (Hlen : forall a b : string,
            String.length (a ++ b) = (String.length a + String.length b)%nat).
  { induction a as [|x a IH]; intros b; [reflexivity|].
    change (String x a ++ b)%string with (String x (a ++ b)%string).
    cbn [String.length]. rewrite IH. reflexivity. }
  induction a as [|x a IH]; intros [|y b] H.
  - reflexivity.
  - apply (f_equal String.length) in H. rewrite !Hlen in H.
    cbn [String.length] in H. lia.
  - apply (f_equal String.length) in H. rewrite !Hlen in H.
    cbn [String.length] in H. lia.
  - change (String x (a ++ c)%string = String y (b ++ c)%string) in H.
    injection H as -> H. rewrite (IH b H). reflexivity.
Qed.

Lemma append_cancel_l (c : string) : forall a b : string,
  (c ++ a)%string = (c ++ b)%string -> a = b.
Proof.
  induction c as [|x c IH]; intros a b H; [exact H|].
  change (String x (c ++ a)%string = String x (c ++ b)%string) in H.
  injection H as H. exact (IH a b H).
Qed.

Lemma fmt_int_inj z z' : fmt_int z = fmt_int z' -> z = z'.
Proof.
  assert (Hnil : forall z, Z.to_int z <> Decimal.Pos Decimal.Nil /\
                           Z.to_int z <> Decimal.Neg Decimal.Nil).
  { intros [|q|q]; cbn; split; try discriminate.
    - intros H. injection H as H. exact (Unsigned.to_uint_nonnil q H).
    - intros H. injection H as H. exact (Unsigned.to_uint_nonnil q H). }
  unfold fmt_int. intros H.
  apply (f_equal NilZero.int_of_string) in H.
  rewrite !NilZero.isi in H by apply Hnil.
  injection H as H. exact (DecimalZ.to_int_inj z z' H).
Qed.

(** X8. A line can be read back: two lines are the same only if they
    come from the same rank, the same level and the same message, since
    the rank is written in decimal, every level has a label of its own
    and the message is written in full. *)
Theorem line_determines_rank_level_message (m m' : MPIManager)
    (lvl lvl' : Level) (msg msg' : string) :
  line_of m lvl msg = line_of m' lvl' msg' ->
  rank m = rank m' /\ lvl = lvl' /\ msg = msg'.
Proof.
  intros H.
  assert (Hshape : forall (r r' : Z) (c c' : color) (l l' : string),
    [Print emphasis_bold ("Rank " ++ fmt_int r ++ ": ")%string;
     Print (fg c) l; Print plain (": " ++ msg ++ newline)%string]
    = [Print emphasis_bold ("Rank " ++ fmt_int r' ++ ": ")%string;
       Print (fg c') l'; Print plain (": " ++ msg' ++ newline)%string] ->
    r = r' /\ l = l' /\ msg = msg').
  { intros r r' c c' l l' E. injection E as Hr _ Hl Hm.
    apply append_cancel_l, append_cancel_r in Hr.
    apply append_cancel_l, append_cancel_r in Hm.
    split; [exact (fmt_int_inj r r' Hr)|]. split; assumption. }
  destruct lvl, lvl';
    destruct (Hshape (rank m) (rank m') _ _ _ _ H) as (Hrank & Hlabel & Hmsg);
    try discriminate Hlabel; (split; [exact Hrank|]; split; [reflexivity|exact Hmsg]).
Qed.

Lemma line_determines_rank_level_message_witness :
  let m := this (example_process 3 4 debug all) in
  let m' := this (example_process 13 14 debug all) in
  line_of m err "x" <> line_of m' err "x" /\
  line_of m err "x" <> line_of m warning "x".
Proof.
  intros m m'. split; intros H.
  - pose proof (proj1 (line_determines_rank_level_message m m' err err
                         "x" "x" H)) as Hrank.
    discriminate Hrank.
  - pose proof (proj1 (proj2 (line_determines_rank_level_message m m err
                                warning "x" "x" H))) as Hlvl.
    discriminate Hlvl.
Defined.

(** ** Groups: every call is ordered by rank *)

Lemma call_trace_shape P c p :
  is_abort c = false ->
  trace_of (invoke P c p) = [] \/
  exists line, prints line = line /\
               trace_of (invoke P c p) = on_ranks_trace (this p) line.
Proof.
  intros Hc.
  assert (Hlog : forall lvl msg,
            log_trace (this p) lvl msg = [] \/
            exists line, prints line = line /\
              log_trace (this p) lvl msg = on_ranks_trace (this p) line).
  { intros lvl msg. unfold log_trace.
    destruct (sufficient_rank (this p) && sufficient_level (this p) lvl)%bool.
    - right. eexists. split; [apply line_of_prints|reflexivity].
    - left. reflexivity. }
  destruct c as [lvl msg|lvl name| |msg]; cbn [invoke].
  - rewrite log_run. apply Hlog.
  - rewrite timer_start_run.
    destruct (sufficient_rank (this p) && sufficient_level (this p) lvl)%bool.
    + right. eexists. split; [apply line_of_prints|reflexivity].
    + left. reflexivity.
  - destruct (snoc_cases (timers (this p))) as [Hts|(ts & t & Hts)].
    + rewrite timer_stop_empty by exact Hts. left. reflexivity.
    + destruct (sufficient_rank (this p)) eqn:Hrank.
      * rewrite (timer_stop_run P p ts t Hts Hrank). apply Hlog.
      * rewrite timer_stop_filtered by exact Hrank. left. reflexivity.
  - discriminate.
Qed.

Lemma shaped_turns_pending (procs : list Process) (f : Process -> trace) :
  is_group procs ->
  (forall p, In p procs ->
     f p = [] \/
     exists line, prints line = line /\ f p = on_ranks_trace (this p) line) ->
  turns_pending 0 (map f procs).
Proof.
  intros Hgroup Hshape pid t Hnth pre e rest Ht He.
  apply nth_error_map_inv in Hnth. destruct Hnth as (p & Hp & ->).
  destruct (Hgroup pid p Hp) as (Hrank & Hsize & Hall).
  destruct (Hshape p (nth_error_In _ _ Hp)) as [Hnil|(line & Hline & Hf)].
  - rewrite Hnil in Ht. destruct pre; discriminate.
  - rewrite Hf in Ht. unfold on_ranks_trace in Ht. rewrite Hall in Ht.
    pose proof (round_robin_position (rank (this p)) (comm (this p)) line
                  Hline 0 (size (this p)) pre e rest Ht He) as H.
    cbn [Nat.add]. lia.
Qed.

(** X9. The order by rank holds for every call that is not [abort]:
    when the processes of a group that logs on every rank all make the
    same call, be it [log], [timer_start] or [timer_stop], each with its
    own clock and its own timer stack, then under every schedule that
    respects the barriers the output is in non-decreasing order of
    rank. *)
Theorem every_call_output_ordered_by_rank (plat : Process -> Platform)
    (procs : list Process) (c : call) :
  is_group procs ->
  is_abort c = false ->
  forall sched out cfg',
    run sched (map (fun p => trace_of (invoke (plat p) c p)) procs)
    = Some (out, cfg') ->
    nondecreasing (map fst out).
Proof.
  intros Hgroup Hc sched out cfg' Hrun.
  refine (proj2 (run_turns sched 0 _ out cfg' _ Hrun)).
  apply shaped_turns_pending; [exact Hgroup|].
  intros p _. apply call_trace_shape. exact Hc.
Qed.

Lemma every_call_output_ordered_by_rank_witness :
  let procs :=
    [final_process (timer_start example_platform info "t"
                      (example_process 0 2 info all));
     final_process (timer_start example_platform info "t"
                      (example_process 1 2 info all))] in
  let cfg := map (fun p => trace_of (invoke example_platform call_timer_stop p))
                 procs in
  let sched := [Run 0; Run 0; Run 0; Sync; Run 1; Run 1; Run 1; Sync] in
  is_group procs /\
  exists out, run sched cfg = Some (out, [[]; []]) /\
              nondecreasing (map fst out).
Proof.
  intros procs cfg sched.
  assert (Hgroup : is_group procs).
  { intros i p Hp.
    destruct i as [|[|i]]; cbn in Hp;
      try (injection Hp as <-; repeat split; reflexivity).
    destruct i; discriminate. }
  split; [exact Hgroup|].
  destruct (run sched cfg) as [[out cfg']|] eqn:Hrun.
  - assert (Hcfg : cfg' = [[]; []])
      by (vm_compute in Hrun; injection Hrun as _ <-; reflexivity).
    subst cfg'. exists out. split; [reflexivity|].
    exact (every_call_output_ordered_by_rank (fun _ => example_platform)
             procs call_timer_stop Hgroup eq_refl sched out _ Hrun).
  - vm_compute in Hrun. discriminate.
Defined.

(** ** Groups: processes that disagree on the level *)

Lemma run_barrier_balance sched : forall cfg out cfg',
  run sched cfg = Some (out, cfg') ->
  all_done cfg' ->
  exists d, Forall (fun t => count_barriers t = d) cfg.
Proof.
  induction sched as [|a sched IH]; intros cfg out cfg' Hrun Hdone.
  - injection Hrun as _ <-. exists 0%nat.
    eapply Forall_impl; [|exact Hdone]. cbn. intros t ->. reflexivity.
  - cbn [run] in Hrun.
    destruct (step a cfg) as [[out1 cfg1]|] eqn:Hstep; [|discriminate].
    destruct (run sched cfg1) as [[out2 cfg2]|] eqn:Hrest; [|discriminate].
    injection Hrun as _ <-.
    destruct (IH cfg1 out2 cfg2 Hrest Hdone) as [d Hd].
    rewrite Forall_forall in Hd.
    destruct a as [pid|]; cbn [step] in Hstep.
    + destruct (nth_error cfg pid) as [[|e rest]|] eqn:Hnth; try discriminate.
      destruct (is_barrier e) eqn:He; [discriminate|].
      injection Hstep as _ <-. exists d. apply Forall_forall. intros t Hin.
      apply In_nth_error in Hin. destruct Hin as [i Hi].
      destruct (Nat.eq_dec i pid) as [->|Hne].
      * rewrite Hnth in Hi. injection Hi as <-.
        unfold count_barriers. cbn [filter]. rewrite He.
        apply (Hd rest). apply (nth_error_In _ pid).
        apply nth_error_replace_nth_eq. apply nth_error_Some.
        rewrite Hnth. discriminate.
      * apply Hd. apply (nth_error_In _ i).
        rewrite nth_error_replace_nth_neq by exact Hne. exact Hi.
    + destruct (forallb at_barrier cfg) eqn:Hall; [|discriminate].
      injection Hstep as _ <-. exists (S d). apply Forall_forall.
      intros t Hin. rewrite forallb_forall in Hall.
      pose proof (Hall t Hin) as Hbar.
      destruct t as [|e t]; [discriminate|]. cbn in Hbar.
      unfold count_barriers. cbn [filter]. rewrite Hbar. cbn [List.length].
      f_equal. apply (Hd t). apply in_map_iff. exists (e :: t).
      split; [reflexivity|exact Hin].
Qed.

(** X10. [log] enters its barriers only after the severity filter has
    passed, so a group whose processes log on every rank but were
    constructed with different maximum levels cannot get through a call
    of [log] at a level that one process acts on and another does not:
    under no schedule do all processes finish the call. *)
Theorem disagreeing_group_never_completes (procs : list Process)
    (lvl : Level) (msg : string) (p q : Process) :
  is_group procs ->
  In p procs -> In q procs ->
  sufficient_level (this p) lvl = true ->
  sufficient_level (this q) lvl = false ->
  forall sched out cfg',
    run sched (map (fun p => trace_of (log lvl msg p)) procs)
    = Some (out, cfg') ->
    ~ all_done cfg'.
Proof.
  intros Hgroup Hp Hq Hpass Hfail sched out cfg' Hrun Hdone.
  destruct (run_barrier_balance sched _ out cfg' Hrun Hdone) as [d Hd].
  rewrite Forall_forall in Hd.
  pose proof (Hd _ (in_map (fun p => trace_of (log lvl msg p)) procs p Hp))
    as Hdp.
  pose proof (Hd _ (in_map (fun p => trace_of (log lvl msg p)) procs q Hq))
    as Hdq.
  cbn beta in Hdp, Hdq. rewrite log_run in Hdp, Hdq.
  cbn [trace_of fst] in Hdp, Hdq. unfold log_trace in Hdp, Hdq.
  rewrite Hfail, andb_false_r in Hdq. cbn in Hdq. rewrite <- Hdq in Hdp.
  apply In_nth_error in Hp. destruct Hp as [i Hi].
  destruct (Hgroup i p Hi) as (_ & Hsize & Hall).
  assert (Hlen : (i < List.length procs)%nat)
    by (apply nth_error_Some; rewrite Hi; discriminate).
  unfold sufficient_rank in Hdp. rewrite Hall, Hpass in Hdp.
  cbn [Ranks_eqb andb] in Hdp.
  rewrite count_barriers_on_ranks in Hdp by apply line_of_prints.
  rewrite Hall in Hdp. lia.
Qed.

Lemma disagreeing_group_never_completes_witness :
  let p := example_process 0 2 debug all in
  let q := example_process 1 2 info all in
  let cfg := map (fun p => trace_of (log debug "trace" p)) [p; q] in
  is_group [p; q] /\
  sufficient_level (this p) debug = true /\
  sufficient_level (this q) debug = false /\
  exists out cfg', run [Run 0; Run 0; Run 0] cfg = Some (out, cfg') /\
                   ~ all_done cfg'.
Proof.
  intros p q cfg.
  assert (Hgroup : is_group [p; q]).
  { intros i r Hr.
    destruct i as [|[|i]]; cbn in Hr;
      try (injection Hr as <-; repeat split; reflexivity).
    destruct i; discriminate. }
  split; [exact Hgroup|]. split; [reflexivity|]. split; [reflexivity|].
  destruct (run [Run 0; Run 0; Run 0] cfg) as [[out cfg']|] eqn:Hrun.
  - exists out, cfg'. split; [reflexivity|].
    exact (disagreeing_group_never_completes [p; q] debug "trace" p q Hgroup
             (or_introl eq_refl) (or_intror (or_introl eq_refl))
             eq_refl eq_refl [Run 0; Run 0; Run 0] out cfg' Hrun).
  - vm_compute in Hrun. discriminate.
Defined.

(** ** Destruction with several timers open *)

(** From position [it] on, with [r] timers open and as many positions
    left to visit, the loop of the destructor runs into a popped element
    unless it is at its only and last position. *)
Lemma dtor_loop_stops_half P r : forall it p,
  List.length (timers (this p)) = r ->
  sufficient_rank (this p) = true ->
  (1 <= r)%nat -> (2 <= it + r)%nat ->
  exists tr p',
    for_each (seq it r)
      (fun it => ts' <- get timers ;;
                 match nth_error ts' it with
                 | Some timer => timer_stop P
                 | None => undefined_behaviour
                 end) p
    = (tr, Undefined p') /\
    Forall (fun e => is_log_event e = true) tr /\
    timers (this p') = firstn (Nat.min r ((r + it) / 2)) (timers (this p)).
Proof.
  induction r as [|r IH]; intros it p Hlen Hrank Hr Hit; [lia|].
  cbn [seq for_each].
  destruct (snoc_cases (timers (this p))) as [Hts|(ts & t & Hts)].
  { rewrite Hts in Hlen. discriminate. }
  assert (Hts_len : List.length ts = r).
  { rewrite Hts, length_app in Hlen. cbn [List.length] in Hlen. lia. }
  destruct (Nat.le_gt_cases it r) as [Hle|Hgt].
  - rewrite (bind_run _ _ p _ tt _
               (dtor_iteration_run P p ts t it Hts Hrank
                  (eq_ind_r (fun n => (it <= n)%nat) Hle Hts_len))).
    destruct (IH (S it)
                (mkProcess (update_timers (this p) ts) (S (clock_reads p)))
                Hts_len Hrank ltac:(lia) ltac:(lia))
      as (tr & p' & Hloop & Hev & Hleft).
    rewrite Hloop.
    exists (log_trace (this p) (Timer.level t)
              (stop_message P t (clock_now P (clock_reads p))) ++ tr), p'.
    split; [reflexivity|].
    split; [apply Forall_app; split; [apply log_trace_events|exact Hev]|].
    rewrite Hleft, Hts. cbn [this timers update_timers].
    assert (Hdiv : ((r + S it) / 2 = (S r + it) / 2)%nat)
      by (f_equal; lia).
    assert (Hhalf : ((S r + it) / 2 <= r)%nat).
    { apply Nat.lt_succ_r, Nat.Div0.div_lt_upper_bound. lia. }
    rewrite Hdiv, !Nat.min_r by lia.
    rewrite firstn_app, Hts_len.
    replace ((S r + it) / 2 - r)%nat with 0%nat by lia.
    cbn [firstn]. rewrite app_nil_r. reflexivity.
  - unfold bind at 1. unfold bind at 1. unfold get at 1.
    assert (Hnone : nth_error (timers (this p)) it = None).
    { apply nth_error_None. rewrite Hlen. lia. }
    rewrite Hnone. unfold undefined_behaviour. exists [], p.
    split; [reflexivity|]. split; [constructor|].
    assert (Hhalf : (S r <= (S r + it) / 2)%nat).
    { apply Nat.div_le_lower_bound; lia. }
    rewrite Nat.min_l by exact Hhalf.
    rewrite <- Hlen, firstn_all. reflexivity.
Qed.

(** X11. With two or more timers open and the rank filter passing, the
    loop of the destructor reaches a position that [timer_stop] has
    already popped.  Up to there it has written only text and entered
    barriers and has stopped the more recent half of the timers, the
    most recent first; copying the destroyed element then leaves the
    defined behaviour of the program, before [MPI_Finalize] is
    reached. *)
Theorem destructor_reads_popped_timer (P : Platform) (p : Process) :
  sufficient_rank (this p) = true ->
  (2 <= List.length (timers (this p)))%nat ->
  exists tr p',
    MPIManager_dtor P p = (tr, Undefined p') /\
    Forall (fun e => is_log_event e = true) tr /\
    ~ In Finalize tr /\
    timers (this p') =
      firstn (List.length (timers (this p)) / 2) (timers (this p)).
Proof.
  intros Hrank Hlen.
  destruct (dtor_loop_stops_half P (List.length (timers (this p))) 0 p
              eq_refl Hrank ltac:(lia) ltac:(lia))
    as (tr & p' & Hloop & Hev & Hleft).
  exists (log_trace (this p) warning destruction_warning ++ tr), p'.
  assert (Hevents : Forall (fun e => is_log_event e = true)
                      (log_trace (this p) warning destruction_warning ++ tr)).
  { apply Forall_app. split; [apply log_trace_events|exact Hev]. }
  split; [|split; [exact Hevents|split]].
  - unfold MPIManager_dtor.
    unfold bind at 1. unfold get at 1.
    destruct (timers (this p)) as [|t0 ts0] eqn:Hts;
      [cbn [List.length] in Hlen; lia|].
    cbn [empty negb when].
    unfold bind at 1. unfold bind at 1. rewrite log_run.
    unfold bind at 1. unfold get at 1. rewrite Hts.
    rewrite Hloop. rewrite app_nil_l. reflexivity.
  - intros Hin. rewrite Forall_forall in Hevents.
    specialize (Hevents Finalize Hin). discriminate.
  - rewrite Hleft, Nat.add_0_r.
    rewrite Nat.min_r by (apply Nat.Div0.div_le_upper_bound; lia).
    reflexivity.
Qed.

Lemma destructor_reads_popped_timer_witness :
  let p0 := example_process 0 1 debug all in
  let p := final_process
             (invoke_all example_platform
                [call_timer_start info "a"; call_timer_start info "b";
                 call_timer_start info "c"] p0) in
  sufficient_rank (this p) = true /\
  List.length (timers (this p)) = 3%nat /\
  returns (MPIManager_dtor example_platform p) = false /\
  count_lines (trace_of (MPIManager_dtor example_platform p)) = 3%nat /\
  timers (this (final_process (MPIManager_dtor example_platform p)))
  = [Timer.make 100 info "a"].
Proof.
  intros p0 p.
  assert (Hrank : sufficient_rank (this p) = true) by reflexivity.
  assert (Hlen : (2 <= List.length (timers (this p)))%nat)
    by (vm_compute; repeat constructor).
  split; [exact Hrank|]. split; [reflexivity|].
  destruct (destructor_reads_popped_timer example_platform p Hrank Hlen)
    as (tr & p' & Hrun & _ & _ & Hleft).
  split; [rewrite Hrun; reflexivity|].
  split; [reflexivity|].
  rewrite Hrun. unfold final_process, outcome_of. cbn [snd].
  rewrite Hleft. reflexivity.
Defined.
